(** * The AEI engine bridge of [Aiexecutables/mypy.py]

    A shallow embedding of the script that launches the Arimaa engine in AEI
    mode, drains its output into a queue from a reader thread, and drives the
    handshake / ready / setup / search / quit dialogue over the engine's
    standard input.

    Layout:
    - [Py]      the Python values and built-ins the script relies on
                ([bytes], [str], the UTF-8 codec, [rstrip], [strip],
                [startswith], [readline]);
    - [Pipe]    the buffered writer that [subprocess.PIPE] gives for stdin;
    - [Bridge]  the script itself: [enqueue_output], [send], the main flow as
                a state machine, and the two threads as a labelled step
                relation;
    - the properties, at the end of the file. *)

From Equations Require Import Equations.
From Stdlib Require Import String Ascii List NArith ZArith Bool Arith Lia.
From Stdlib.Strings Require Import Byte.
Import ListNotations.

(** ** Python values and built-ins *)

Module Py.

Definition bytes := list byte.

(** A Python [str] is a sequence of code points. *)
Definition str := list N.

Definition ord (b : byte) : N := Byte.to_N b.

(** A [str] literal of the script (all of them are ASCII). *)
Definition lit (s : string) : str :=
  map N_of_ascii (list_ascii_of_string s).

Definition LF : N := 10.
Definition CR : N := 13.

Definition str_eqb (s t : str) : bool :=
  if list_eq_dec N.eq_dec s t then true else false.

(** The exceptions that the calls of the script can raise. *)
Inductive exn : Type :=
| UnicodeDecodeError
| UnicodeEncodeError
| BrokenPipeError         (* [OSError] with errno [EPIPE] *)
| OSError_EINVAL          (* [OSError] with errno [EINVAL] *)
| ValueError.

(** A call either returns a value or raises. *)
Inductive result (A : Type) : Type :=
| Ok (a : A)
| Raise (e : exn).
Arguments Ok {A} a.
Arguments Raise {A} e.

Definition or_raise {A : Type} (e : exn) (o : option A) : result A :=
  match o with Some a => Ok a | None => Raise e end.

(** *** The UTF-8 codec

    [decode1] reads one code point off the front of a byte sequence, following
    the table of well-formed byte sequences: no overlong forms, no surrogates,
    nothing above U+10FFFF.  This is what [bytes.decode("utf-8")] accepts with
    its default (strict) error handler. *)

Definition between (lo hi : N) (b : byte) : bool :=
  ((lo <=? ord b) && (ord b <=? hi))%N.

Definition is_cont : byte -> bool := between 0x80 0xBF.

(** The six payload bits of a continuation byte. *)
Definition payload (b : byte) : N := (ord b - 0x80)%N.

Definition decode1 (bs : bytes) : option (N * bytes) :=
  match bs with
  | [] => None
  | b0 :: r0 =>
    let n0 := ord b0 in
    if (n0 <? 0x80)%N then Some (n0, r0)
    else if (n0 <? 0xC2)%N then None
    else if (n0 <? 0xE0)%N then
      match r0 with
      | b1 :: r1 =>
        if is_cont b1
        then Some (((n0 - 0xC0) * 0x40 + payload b1)%N, r1)
        else None
      | _ => None
      end
    else if (n0 <? 0xF0)%N then
      match r0 with
      | b1 :: b2 :: r2 =>
        let lo := if (n0 =? 0xE0)%N then 0xA0%N else 0x80%N in
        let hi := if (n0 =? 0xED)%N then 0x9F%N else 0xBF%N in
        if between lo hi b1 && is_cont b2
        then Some (((n0 - 0xE0) * 0x1000 + payload b1 * 0x40 + payload b2)%N, r2)
        else None
      | _ => None
      end
    else if (n0 <? 0xF5)%N then
      match r0 with
      | b1 :: b2 :: b3 :: r3 =>
        let lo := if (n0 =? 0xF0)%N then 0x90%N else 0x80%N in
        let hi := if (n0 =? 0xF4)%N then 0x8F%N else 0xBF%N in
        if between lo hi b1 && is_cont b2 && is_cont b3
        then Some (((n0 - 0xF0) * 0x40000 + payload b1 * 0x1000
                    + payload b2 * 0x40 + payload b3)%N, r3)
        else None
      | _ => None
      end
    else None
  end.

Lemma decode1_shorter bs c rest :
  decode1 bs = Some (c, rest) -> length rest < length bs.
Proof.
  unfold decode1. destruct bs as [|b0 r0]; [discriminate|].
  repeat match goal with
  | |- context [if ?c then _ else _] => destruct c
  | |- context [match ?l with [] => _ | _ :: _ => _ end] => destruct l
  end; intros H; inversion H; subst; simpl; lia.
Qed.

(** Matching on a value while remembering which value it was. *)
Definition inspect {A : Type} (a : A) : {b : A | a = b} := exist _ a eq_refl.

(** [bytes.decode("utf-8")]: [None] stands for [UnicodeDecodeError]. *)
Equations? decode (bs : bytes) : option str by wf (length bs) lt :=
  decode [] := Some [];
  decode (b :: r) with inspect (decode1 (b :: r)) := {
    | exist _ None _ := None;
    | exist _ (Some (c, rest)) H := option_map (cons c) (decode rest) }.
Proof. exact (decode1_shorter (b :: r) c rest H). Qed.


Example decode_ascii :
  decode ["a"; "e"; "i"; "o"; "k"; x0a]%byte = Some (lit "aeiok" ++ [LF]).
Proof. reflexivity. Qed.

Example decode_euro : decode [xe2; x82; xac]%byte = Some [0x20AC%N].
Proof. reflexivity. Qed.

Example decode_overlong : decode [xc0; x80]%byte = None.
Proof. reflexivity. Qed.

Example decode_surrogate : decode [xed; xa0; x80]%byte = None.
Proof. reflexivity. Qed.

Example decode_truncated : decode ["a"; xe2; x82]%byte = None.
Proof. reflexivity. Qed.

(** [str.encode("utf-8")]: [None] stands for [UnicodeEncodeError], which the
    strict handler raises on a lone surrogate. *)
Definition chr (n : N) : byte :=
  match Byte.of_N n with Some b => b | None => x00 end.

Definition is_surrogate (c : N) : bool := ((0xD800 <=? c) && (c <=? 0xDFFF))%N.

Definition encode1 (c : N) : option bytes :=
  if (c <? 0x80)%N then Some [chr c]
  else if (c <? 0x800)%N then
    Some [chr (0xC0 + c / 0x40); chr (0x80 + c mod 0x40)]
  else if (c <? 0x10000)%N then
    if is_surrogate c then None
    else Some [chr (0xE0 + c / 0x1000); chr (0x80 + (c / 0x40) mod 0x40);
               chr (0x80 + c mod 0x40)]
  else if (c <? 0x110000)%N then
    Some [chr (0xF0 + c / 0x40000); chr (0x80 + (c / 0x1000) mod 0x40);
          chr (0x80 + (c / 0x40) mod 0x40); chr (0x80 + c mod 0x40)]
  else None.

Fixpoint encode (s : str) : option bytes :=
  match s with
  | [] => Some []
  | c :: s' =>
    match encode1 c with
    | None => None
    | Some bs => option_map (app bs) (encode s')
    end
  end.

(** Text that the codec can encode: Unicode scalar values only. *)
Definition scalar (c : N) : Prop :=
  (c < 0xD800 \/ 0xDFFF < c < 0x110000)%N.

Definition encodable (s : str) : Prop := Forall scalar s.

(** *** [str] methods *)

(** [s.rstrip(chars)], the set of characters given as a predicate. *)
Fixpoint rstrip (chars : N -> bool) (s : str) : str :=
  match s with
  | [] => []
  | c :: s' =>
    match rstrip chars s' with
    | [] => if chars c then [] else [c]
    | t => c :: t
    end
  end.

Fixpoint lstrip (chars : N -> bool) (s : str) : str :=
  match s with
  | [] => []
  | c :: s' => if chars c then lstrip chars s' else s
  end.

(** Membership in the argument of [rstrip("\n")]. *)
Definition one_of (chars : str) (c : N) : bool := existsb (N.eqb c) chars.

(** [str.isspace] on one character: the code points Python treats as
    whitespace. *)
Definition isspace (c : N) : bool :=
  ((0x09 <=? c) && (c <=? 0x0D) || (0x1C <=? c) && (c <=? 0x20)
   || (c =? 0x85) || (c =? 0xA0) || (c =? 0x1680)
   || (0x2000 <=? c) && (c <=? 0x200A)
   || (c =? 0x2028) || (c =? 0x2029) || (c =? 0x202F) || (c =? 0x205F)
   || (c =? 0x3000))%N.

(** [s.strip()] with no argument. *)
Definition strip (s : str) : str := rstrip isspace (lstrip isspace s).

(** [s.startswith(prefix)]. *)
Fixpoint startswith (s prefix : str) {struct prefix} : bool :=
  match prefix, s with
  | [], _ => true
  | _ :: _, [] => false
  | p :: prefix', c :: s' => (c =? p)%N && startswith s' prefix'
  end.

(** *** Binary streams *)

Definition is_newline (b : byte) : bool := (ord b =? 0x0A)%N.

(** [stream.readline()] on the bytes the stream still holds up to its end:
    the line with its terminator (or the unterminated rest, or [b""] at the end
    of the stream), and what stays unread. *)
Fixpoint readline (s : bytes) : bytes * bytes :=
  match s with
  | [] => ([], [])
  | b :: s' =>
    if is_newline b then ([b], s')
    else let (line, rest) := readline s' in (b :: line, rest)
  end.

Lemma readline_app s : fst (readline s) ++ snd (readline s) = s.
Proof.
  induction s as [|b s IH]; simpl; [reflexivity|].
  destruct (is_newline b); simpl; [reflexivity|].
  destruct (readline s) as [line rest]; simpl in *. now rewrite IH.
Qed.

Lemma readline_shorter s line rest :
  readline s = (line, rest) -> line <> [] -> length rest < length s.
Proof.
  intros H Hne. pose proof (readline_app s) as Happ. rewrite H in Happ.
  simpl in Happ. subst s. rewrite length_app.
  destruct line; [congruence | simpl; lia].
Qed.

(** The values [iter(stream.readline, b"")] yields: successive lines until
    [readline] returns [b""]. *)
Equations? readlines (s : bytes) : list bytes by wf (length s) lt :=
  readlines s with inspect (readline s) := {
    | exist _ ([], _) _ := [];
    | exist _ (b :: line, rest) H := (b :: line) :: readlines rest }.
Proof. apply (readline_shorter _ _ _ H). discriminate. Qed.

Example readlines_ex :
  readlines ["a"; x0a; x0a; "b"; x0d; x0a; "c"]%byte
  = [["a"; x0a]; [x0a]; ["b"; x0d; x0a]; ["c"]]%byte.
Proof. reflexivity. Qed.

Example strip_ex : strip (lit " aeiok  " ++ [CR]) = lit "aeiok".
Proof. reflexivity. Qed.

Example rstrip_ex : rstrip (one_of [LF]) (lit "ok" ++ [CR; LF]) = lit "ok" ++ [CR].
Proof. reflexivity. Qed.

Example encode_ex : encode (lit "go" ++ [0x20AC%N; LF]) =
  Some ["g"; "o"; xe2; x82; xac; x0a]%byte.
Proof. reflexivity. Qed.

End Py.

(** ** The writable end of the engine's stdin

    [Popen(..., stdin=PIPE, bufsize=-1)] hands the script a buffered writer of
    the default buffer size over a blocking pipe.  A write gets through while
    the stream is open and the engine holds the read end.  Once the read end
    is gone (the engine has exited, or has closed its standard input), the
    write system call fails with the error of the platform: [EPIPE] on POSIX,
    which Python raises as [BrokenPipeError], and [EINVAL] on Windows, raised
    as a plain [OSError].  On a stream that [close()] was called on, [write]
    and [flush] raise [ValueError] before any system call.  What [write] has
    accepted stays in the buffer until a [flush] gets it through: a [flush]
    that raises leaves the buffer as it was. *)

Module Pipe.
Import Py.

Definition DEFAULT_BUFFER_SIZE : N := 8192.

Definition size (data : bytes) : N := N.of_nat (length data).

(** What the platform answers to a write on a pipe without a reader. *)
Inductive errno : Type :=
| EPIPE
| EINVAL.

Definition os_error (e : errno) : exn :=
  match e with
  | EPIPE => BrokenPipeError
  | EINVAL => OSError_EINVAL
  end.

Inductive state : Type :=
| Writable              (* open, and the engine holds the read end *)
| Broken (e : errno)    (* open, but the read end is gone *)
| Closed.               (* [close()] was called on the stream *)

Record t : Type := mk {
  status : state;
  buffered : bytes;     (* accepted by [write], not yet handed to the pipe *)
  delivered : bytes     (* handed to the pipe: what the engine can read *)
}.

(** The stream is open and its read end is held: a write gets through. *)
Definition reader_open (p : t) : bool :=
  match status p with
  | Writable => true
  | _ => false
  end.

Definition fresh : t := mk Writable [] [].

(** The write system call on the pipe; the stream is as it was when the
    call fails. *)
Definition raw_write (data : bytes) (p : t) : result unit * t :=
  match status p with
  | Writable => (Ok tt, mk Writable (buffered p) (delivered p ++ data))
  | Broken e => (Raise (os_error e), p)
  | Closed => (Raise ValueError, p)
  end.

(** [flush()]: hand the buffer over; nothing to do on an empty buffer.  The
    buffer is emptied only when the write went through. *)
Definition flush (p : t) : result unit * t :=
  match status p with
  | Closed => (Raise ValueError, p)
  | _ =>
    match buffered p with
    | [] => (Ok tt, p)
    | data =>
      match raw_write data p with
      | (Ok _, p') => (Ok tt, mk (status p') [] (delivered p'))
      | (Raise e, _) => (Raise e, p)
      end
    end
  end.

(** [write(data)]: data that fits is only buffered; otherwise the buffer is
    flushed first, and data larger than the whole buffer goes straight to the
    pipe. *)
Definition write (data : bytes) (p : t) : result unit * t :=
  match status p with
  | Closed => (Raise ValueError, p)
  | _ =>
    if (size data <=? DEFAULT_BUFFER_SIZE - size (buffered p))%N
    then (Ok tt, mk (status p) (buffered p ++ data) (delivered p))
    else
      match flush p with
      | (Raise e, p') => (Raise e, p')
      | (Ok _, p') =>
        if (DEFAULT_BUFFER_SIZE <? size data)%N
        then raw_write data p'
        else (Ok tt, mk (status p') data (delivered p'))
      end
  end.

(** The read end goes away: the engine exits, or closes its standard
    input.  [e] is the error that writes meet from then on. *)
Definition hang_up (e : errno) (p : t) : t :=
  match status p with
  | Writable => mk (Broken e) (buffered p) (delivered p)
  | _ => p
  end.

End Pipe.

(** ** The script *)

Module Bridge.
Import Py.

(** *** The reader thread *)

(** How a thread's target function ends. *)
Inductive ending : Type :=
| Returned                (* ran to its end; for the reader, after [stream.close()] *)
| Uncaught (e : exn).     (* an exception left the function and killed the thread *)

(** [enqueue_output(stream, q)] run to its end on a stream that holds [stream]
    up to its end of file: the queue afterwards and how the call ended. *)
Equations? enqueue_output (stream : bytes) (q : list str)
  : list str * ending by wf (length stream) lt :=
  enqueue_output stream q with inspect (readline stream) := {
    | exist _ ([], _) _ := (q, Returned);
    | exist _ (b :: line, rest) H with decode (b :: line) := {
      | None := (q, Uncaught UnicodeDecodeError);
      | Some text := enqueue_output rest (q ++ [rstrip (one_of [LF]) text]) } }.
Proof. apply (readline_shorter _ _ _ H). discriminate. Qed.

Example enqueue_output_ex :
  enqueue_output ["o"; "k"; x0d; x0a; x0a; "g"; "o"]%byte []
  = ([lit "ok" ++ [CR]; []; lit "go"], Returned).
Proof. reflexivity. Qed.

(** *** The main flow: its variables and its commands *)

(** What the main flow reads and writes: [engine.stdin], the variable
    [bestmove], and what [print] has written so far. *)
Record world : Type := mkWorld {
  stdin : Pipe.t;
  bestmove : option str;
  console : str
}.

(** Statements run in a world and either complete or raise; the world is
    kept as it was when the exception left. *)
Definition M (A : Type) : Type := world -> result A * world.

Definition ret {A : Type} (a : A) : M A := fun w => (Ok a, w).

Definition bind {A B : Type} (m : M A) (k : A -> M B) : M B :=
  fun w =>
    match m w with
    | (Ok a, w') => k a w'
    | (Raise e, w') => (Raise e, w')
    end.

Declare Scope py_scope.
Delimit Scope py_scope with py.
Notation "m ;; k" := (bind m (fun _ => k))
  (at level 61, right associativity) : py_scope.
Local Open Scope py_scope.

(** [send(cmd)].  The text is encoded before the stream is touched; when
    [write] or [flush] raises, [engine.stdin] stays as the call left it, with
    what [write] had accepted still in its buffer. *)
Definition send (cmd : str) : M unit := fun w =>
  match or_raise UnicodeEncodeError (encode (cmd ++ [LF])) with
  | Raise e => (Raise e, w)
  | Ok data =>
    match Pipe.write data (stdin w) with
    | (Raise e, p) => (Raise e, mkWorld p (bestmove w) (console w))
    | (Ok _, p) =>
      match Pipe.flush p with
      | (Raise e, p') => (Raise e, mkWorld p' (bestmove w) (console w))
      | (Ok _, p') => (Ok tt, mkWorld p' (bestmove w) (console w))
      end
    end
  end.

(** [print(a, b)]: the two texts, a space between, a newline after.  The
    console is taken to be one that can show every character (standard
    output in UTF-8), so that [print] does not raise. *)
Definition print (a b : str) : M unit := fun w =>
  (Ok tt, mkWorld (stdin w) (bestmove w) (console w ++ a ++ lit " " ++ b ++ [LF])).

(** [bestmove = line]. *)
Definition assign_bestmove (line : str) : M unit := fun w =>
  (Ok tt, mkWorld (stdin w) (Some line) (console w)).

(** The position and the move time the script sets. *)
Definition setposition : str :=
  lit "setposition g [rrrrrrrrhcdmedch                                HCDMEDCHRRRRRRRR]".

Definition setoption : str := lit "setoption name tcmove value 10".

(** Where the main flow stands: before its first statement, blocked in one
    of its three waiting loops, waiting for the engine to exit, or over. *)
Inductive phase : Type :=
| START
| INIT            (* [q.get()], waiting for "aeiok" *)
| READY_CHECK     (* [q.get()], waiting for "readyok" *)
| SEARCHING       (* [q.get(timeout=0.1)], waiting for "bestmove..." *)
| DONE            (* [engine.wait()] *)
| EXITED
| CRASHED (e : exn).

(** From the start to the first [q.get()]. *)
Definition start : M phase :=
  send (lit "aei") ;; ret INIT.

(** One turn of the waiting loop the flow is in, on the line [q.get]
    returned, up to the next [q.get] (or to [engine.wait()]). *)
Definition on_line (ph : phase) (line : str) : M phase :=
  match ph with
  | INIT =>
    print (lit "ENGINE:") line ;;
    if str_eqb (strip line) (lit "aeiok")
    then send (lit "isready") ;; ret READY_CHECK
    else ret INIT
  | READY_CHECK =>
    print (lit "ENGINE:") line ;;
    if str_eqb (strip line) (lit "readyok")
    then
      send (lit "newgame") ;;
      send setposition ;;
      send setoption ;;
      send (lit "go") ;;
      ret SEARCHING
    else ret READY_CHECK
  | SEARCHING =>
    print (lit "ENGINE:") line ;;
    if startswith line (lit "bestmove")
    then
      assign_bestmove line ;;
      print ([LF] ++ lit "Final engine move:") line ;;
      send (lit "quit") ;;
      ret DONE
    else ret SEARCHING
  | other => ret other
  end.

(** What a [q.get] hands to the loop: a line, or [queue.Empty] when the
    timeout of the polling loop ran out. *)
Inductive polled : Type :=
| Line (line : str)
| Empty.

(** The main flow between two blocking calls. *)
Record driver : Type := mkDriver {
  at_phase : phase;
  vars : world
}.

Definition advance (r : result phase * world) : driver :=
  match r with
  | (Ok ph, w) => mkDriver ph w
  | (Raise e, w) => mkDriver (CRASHED e) w
  end.

(** [except queue.Empty: continue] leaves everything as it is. *)
Definition driver_step (d : driver) (p : polled) : driver :=
  match p with
  | Line line => advance (on_line (at_phase d) line (vars d))
  | Empty => d
  end.

Definition run_driver (d : driver) (ps : list polled) : driver :=
  fold_left driver_step ps d.

Definition launched : driver := mkDriver START (mkWorld Pipe.fresh None []).

Definition started : driver := advance (start (vars launched)).

(** *** The reader thread, the main flow and the engine side by side

    The engine is a black box: while it lives it may write any bytes to its
    output at any time, it may close its standard input, and it may exit,
    which ends its output and closes the read end of its input.  The reader
    thread and the main flow take their steps in any interleaving; a call
    that blocks is a step that is not enabled. *)

(** [engine.stdout] as the reader sees it. *)
Record outstream : Type := mkOut {
  unread : bytes;     (* written by the engine, not yet read *)
  at_eof : bool       (* the engine has closed its end *)
}.

(** [readline] returns once a whole line is there or the stream has ended. *)
Definition readable (o : outstream) : bool :=
  existsb is_newline (unread o) || at_eof o.

Inductive thread : Type :=
| Running
| Ended (e : ending).

Record system : Type := mkSys {
  engine_alive : bool;
  stdout : outstream;
  reader : thread;
  q : list str;          (* the [queue.Queue], oldest line first *)
  main : driver
}.

Definition initial : system :=
  mkSys true (mkOut [] false) Running [] launched.

(** What an observer of the queue and of the engine's output sees. *)
Inductive label : Type :=
| Emit (data : bytes)     (* the engine writes to its output *)
| Exit                    (* the engine exits *)
| Put (line : str)        (* [q.put(line)] *)
| Get (p : polled)        (* a [q.get] of the main flow returns *)
| Tau.

(** The main flow is inside one of its waiting loops. *)
Definition waiting (ph : phase) : bool :=
  match ph with
  | INIT | READY_CHECK | SEARCHING => true
  | _ => false
  end.

(** The script is over, normally or by an uncaught exception.  The reader
    is a daemon thread: it does not outlive the main flow. *)
Definition over (ph : phase) : bool :=
  match ph with
  | EXITED | CRASHED _ => true
  | _ => false
  end.

(** The engine lets go of the read end of its input; nothing else of the
    main flow changes. *)
Definition hang_up (e : Pipe.errno) (d : driver) : driver :=
  mkDriver (at_phase d)
    (mkWorld (Pipe.hang_up e (stdin (vars d))) (bestmove (vars d))
       (console (vars d))).

Inductive step : system -> label -> system -> Prop :=
| engine_emit s data :
    engine_alive s = true ->
    step s (Emit data)
      (mkSys true (mkOut (unread (stdout s) ++ data) (at_eof (stdout s)))
         (reader s) (q s) (main s))
| engine_exit s e :
    engine_alive s = true ->
    step s Exit
      (mkSys false (mkOut (unread (stdout s)) true) (reader s) (q s)
         (hang_up e (main s)))
| engine_shut s e :        (* the engine closes its standard input and lives on *)
    engine_alive s = true ->
    step s Tau
      (mkSys true (stdout s) (reader s) (q s) (hang_up e (main s)))
| reader_put s raw rest text :
    reader s = Running ->
    over (at_phase (main s)) = false ->
    readable (stdout s) = true ->
    readline (unread (stdout s)) = (raw, rest) ->
    raw <> [] ->
    decode raw = Some text ->
    step s (Put (rstrip (one_of [LF]) text))
      (mkSys (engine_alive s) (mkOut rest (at_eof (stdout s))) Running
         (q s ++ [rstrip (one_of [LF]) text]) (main s))
| reader_raise s raw rest :
    reader s = Running ->
    over (at_phase (main s)) = false ->
    readable (stdout s) = true ->
    readline (unread (stdout s)) = (raw, rest) ->
    raw <> [] ->
    decode raw = None ->
    step s Tau
      (mkSys (engine_alive s) (mkOut rest (at_eof (stdout s)))
         (Ended (Uncaught UnicodeDecodeError)) (q s) (main s))
| reader_close s rest :
    reader s = Running ->
    over (at_phase (main s)) = false ->
    readable (stdout s) = true ->
    readline (unread (stdout s)) = ([], rest) ->
    step s Tau
      (mkSys (engine_alive s) (stdout s) (Ended Returned) (q s) (main s))
| main_start s :
    at_phase (main s) = START ->
    step s Tau
      (mkSys (engine_alive s) (stdout s) (reader s) (q s)
         (advance (start (vars (main s)))))
| main_get s line q' :
    waiting (at_phase (main s)) = true ->
    q s = line :: q' ->
    step s (Get (Line line))
      (mkSys (engine_alive s) (stdout s) (reader s) q'
         (driver_step (main s) (Line line)))
| main_empty s :
    at_phase (main s) = SEARCHING ->
    q s = [] ->
    step s (Get Empty)
      (mkSys (engine_alive s) (stdout s) (reader s) (q s)
         (driver_step (main s) Empty))
| main_wait s :
    at_phase (main s) = DONE ->
    engine_alive s = false ->
    step s Tau
      (mkSys false (stdout s) (reader s) (q s)
         (mkDriver EXITED (vars (main s)))).

(** Runs, with what they show. *)
Inductive steps : system -> list label -> system -> Prop :=
| steps_nil s : steps s [] s
| steps_cons s l s' t s'' :
    step s l s' -> steps s' t s'' -> steps s (l :: t) s''.

(** The lines put on the queue and the lines taken off it during a run. *)
Fixpoint puts (t : list label) : list str :=
  match t with
  | [] => []
  | Put line :: t' => line :: puts t'
  | _ :: t' => puts t'
  end.

Fixpoint gets (t : list label) : list str :=
  match t with
  | [] => []
  | Get (Line line) :: t' => line :: gets t'
  | _ :: t' => gets t'
  end.

(** The turns of the polling loop during a run. *)
Fixpoint polls (t : list label) : list polled :=
  match t with
  | [] => []
  | Get p :: t' => p :: polls t'
  | _ :: t' => polls t'
  end.

(** *** Vocabulary of the properties *)

(** The Line that one turn of the reader's loop makes of a raw line. *)
Definition line_of (raw : bytes) : option str :=
  option_map (rstrip (one_of [LF])) (decode raw).

(** What the reader's loop makes of the raw lines it reads, one after the
    other: the Lines it puts and how it ends. *)
Fixpoint drained (raws : list bytes) : list str * ending :=
  match raws with
  | [] => ([], Returned)
  | raw :: raws' =>
    match decode raw with
    | None => ([], Uncaught UnicodeDecodeError)
    | Some text =>
      let (lines, e) := drained raws' in (rstrip (one_of [LF]) text :: lines, e)
    end
  end.

(** The number of line terminators in a stream. *)
Definition terminators (s : bytes) : nat := length (filter is_newline s).

(** The bytes after the last line terminator of a stream. *)
Fixpoint fragment (s : bytes) : bytes :=
  match s with
  | [] => []
  | _ :: s' => if existsb is_newline s then fragment s' else s
  end.

(** A Line ends in a line terminator. *)
Definition ends_in_LF (line : str) : Prop := exists t, line = t ++ [LF].

(** [line] is [text] without the "\n" characters at its end. *)
Definition without_trailing_LF (text line : str) : Prop :=
  exists lfs,
    text = line ++ lfs /\ Forall (fun c => c = LF) lfs /\ ~ ends_in_LF line.

(** An output of lines that the engine ends in "\r\n". *)
Definition crlf_lines (bodies : list bytes) : bytes :=
  concat (map (fun body => body ++ [x0d; x0a]) bodies).

(** The main flow after the handshake and the setup, polling for the move. *)
Definition handshaken : driver :=
  run_driver started [Line (lit "aeiok"); Line (lit "readyok")].

(** A turn of the polling loop that does not end it: [queue.Empty], or a
    line that does not begin with "bestmove". *)
Definition no_bestmove (p : polled) : Prop :=
  match p with
  | Line line => startswith line (lit "bestmove") = false
  | Empty => True
  end.

(** The main flow is blocked in a [q.get()] without timeout on an empty
    queue. *)
Definition blocked (s : system) : Prop :=
  (at_phase (main s) = INIT \/ at_phase (main s) = READY_CHECK) /\ q s = [].

(** Where the two threads stand when the engine has exited right after the
    launch and the reader has seen the end of its output. *)
Definition abandoned : system :=
  mkSys false (mkOut [] true) (Ended Returned) [] (hang_up Pipe.EPIPE started).

(** The engine answers the handshake with a noise line and "aeiok"; the
    reader has put both Lines and the main flow has taken the first. *)
Definition greeting : bytes :=
  ["h"; "i"; x0a; "a"; "e"; "i"; "o"; "k"; x0a]%byte.

Definition greeted : system :=
  mkSys true (mkOut [] false) Running [lit "aeiok"]
    (driver_step started (Line (lit "hi"))).

(** The reader has died on a malformed line while the main flow waits for
    "aeiok" and the engine lives on. *)
Definition orphaned : system :=
  mkSys true (mkOut [] false) (Ended (Uncaught UnicodeDecodeError)) [] started.

(** A stream with a plain line, an empty line, a line ended in "\r\n" and
    an unterminated fragment. *)
Definition mixed_endings : bytes :=
  ["a"; x0a; x0a; "b"; x0d; x0a; "c"]%byte.

(** A stream that ends where a line ends. *)
Definition complete (c : bytes) : Prop := c = [] \/ exists c', c = c' ++ [x0a].

(** All that the engine has written during a run. *)
Fixpoint emitted (t : list label) : bytes :=
  match t with
  | [] => []
  | Emit data :: t' => data ++ emitted t'
  | _ :: t' => emitted t'
  end.

(** A raw line as [readline] returns it before the end of the stream. *)
Definition terminated (raw : bytes) : Prop :=
  exists body, raw = body ++ [x0a] /\ existsb is_newline body = false.

(** How far the reader has come in the output [E] that the engine has
    written, having put the Lines [P]. *)
Definition reader_at (E : bytes) (P : list str) (s : system) : Prop :=
  at_eof (stdout s) = negb (engine_alive s)
  /\ match reader s with
     | Running =>
       exists c,
         E = c ++ unread (stdout s)
         /\ drained (readlines c) = (P, Returned)
         /\ (complete c \/ (unread (stdout s) = [] /\ at_eof (stdout s) = true))
     | Ended Returned =>
       engine_alive s = false
       /\ exists c, E = c /\ drained (readlines c) = (P, Returned)
     | Ended (Uncaught e) =>
       e = UnicodeDecodeError
       /\ exists c bad u,
            E = c ++ bad ++ u
            /\ drained (readlines c) = (P, Returned)
            /\ complete c
            /\ decode bad = None
            /\ (terminated bad
                \/ (bad <> [] /\ existsb is_newline bad = false
                    /\ u = [] /\ engine_alive s = false))
     end.

(** *** Vocabulary of the properties of whole sessions *)

(** The variables of the script after [engine.stdin.close()] had been called
    right after the launch. *)
Definition shut_by_script : world :=
  mkWorld (Pipe.mk Pipe.Closed [] []) None [].

(** Several commands sent one after the other. *)
Fixpoint send_each (cmds : list str) : M unit :=
  match cmds with
  | [] => ret tt
  | cmd :: cmds' => send cmd ;; send_each cmds'
  end.

(** The commands of the script, in the order in which it sends them. *)
Definition script : list str :=
  [lit "aei"; lit "isready"; lit "newgame"; setposition; setoption;
   lit "go"; lit "quit"].

(** The text that commands make on the engine's input: each one followed by
    its "\n". *)
Definition wire_text (cmds : list str) : str :=
  flat_map (fun cmd => cmd ++ [LF]) cmds.

(** What [print("ENGINE:", line)] adds to the console for the lines taken. *)
Definition echoed (lines : list str) : str :=
  flat_map (fun line => lit "ENGINE:" ++ lit " " ++ line ++ [LF]) lines.

(** What [print("\nFinal engine move:", bestmove)] adds to the console. *)
Definition final_report (result : option str) : str :=
  match result with
  | None => []
  | Some move => ([LF] ++ lit "Final engine move:") ++ lit " " ++ move ++ [LF]
  end.

(** The result is a line taken from the queue that begins with "bestmove",
    and the last line taken. *)
Definition found (taken : list str) (result : option str) : Prop :=
  exists move before,
    result = Some move
    /\ taken = before ++ [move]
    /\ startswith move (lit "bestmove") = true.

(** Where the main flow stands after it has taken the lines [taken] off the
    queue and sent the first [n] commands of the script. *)
Definition main_at (taken : list str) (n : nat) (s : system) : Prop :=
  Pipe.status (stdin (vars (main s))) <> Pipe.Closed
  /\ (engine_alive s = false ->
      Pipe.reader_open (stdin (vars (main s))) = false)
  /\ encode (wire_text (firstn n script))
     = Some (Pipe.delivered (stdin (vars (main s))))
  /\ console (vars (main s))
     = echoed taken ++ final_report (bestmove (vars (main s)))
  /\ match at_phase (main s) with
     | CRASHED e =>
       exists errno cmd,
         e = Pipe.os_error errno
         /\ Pipe.status (stdin (vars (main s))) = Pipe.Broken errno
         /\ nth_error script n = Some cmd
         /\ encode (cmd ++ [LF]) = Some (Pipe.buffered (stdin (vars (main s))))
     | _ => Pipe.buffered (stdin (vars (main s))) = []
     end
  /\ match at_phase (main s) with
     | START => n = 0 /\ taken = [] /\ bestmove (vars (main s)) = None
     | INIT => n = 1 /\ bestmove (vars (main s)) = None
     | READY_CHECK => n = 2 /\ bestmove (vars (main s)) = None
     | SEARCHING => n = 6 /\ bestmove (vars (main s)) = None
     | DONE => n = 7 /\ found taken (bestmove (vars (main s)))
     | EXITED =>
       n = 7 /\ found taken (bestmove (vars (main s)))
       /\ engine_alive s = false
     | CRASHED _ =>
       bestmove (vars (main s)) = None
       \/ found taken (bestmove (vars (main s)))
     end.

(** A whole session: the engine answers the handshake, the ready check and
    the search, and exits after "quit". *)
Definition answers : bytes :=
  ["a"; "e"; "i"; "o"; "k"; x0a;
   "r"; "e"; "a"; "d"; "y"; "o"; "k"; x0a;
   "b"; "e"; "s"; "t"; "m"; "o"; "v"; "e"; " "; "H"; "h"; "2"; "n"; x0a]%byte.

Definition session : list label :=
  [Tau; Emit answers;
   Put (lit "aeiok"); Put (lit "readyok"); Put (lit "bestmove Hh2n");
   Get (Line (lit "aeiok")); Get (Line (lit "readyok"));
   Get (Line (lit "bestmove Hh2n"));
   Exit; Tau; Tau].

Definition moved : driver :=
  driver_step handshaken (Line (lit "bestmove Hh2n")).

Definition finished : system :=
  mkSys false (mkOut [] true) (Ended Returned) []
    (mkDriver EXITED (vars (hang_up Pipe.EPIPE moved))).

(** The engine has exited before the first command was sent. *)
Definition stillborn : system :=
  mkSys false (mkOut [] true) Running []
    (advance (start (vars (hang_up Pipe.EINVAL launched)))).

(** A line that is [core] with whitespace around it. *)
Definition padded (core line : str) : Prop :=
  exists pre post,
    line = pre ++ core ++ post
    /\ forallb isspace pre = true
    /\ forallb isspace post = true.

(** The engine has exited during the handshake, leaving a line and an
    unterminated fragment unread. *)
Definition bereft : system :=
  mkSys false (mkOut ["o"; "k"; x0a; "b"; "y"; "e"]%byte true) Running []
    (hang_up Pipe.EPIPE started).

(** The main flow polls for the move on an empty queue. *)
Definition pondering : system :=
  mkSys true (mkOut [] false) Running [] handshaken.

End Bridge.

Import Py Bridge.
Local Open Scope py_scope.

(** * Supporting lemmas *)

(** ** Tactics *)

Ltac bool_to_prop :=
  repeat match goal with
  | E : (_ <? _)%N = true |- _ => apply N.ltb_lt in E
  | E : (_ <? _)%N = false |- _ => apply N.ltb_ge in E
  | E : (_ <=? _)%N = true |- _ => apply N.leb_le in E
  | E : (_ <=? _)%N = false |- _ => apply N.leb_gt in E
  | E : (_ =? _)%N = true |- _ => apply N.eqb_eq in E
  | E : (_ =? _)%N = false |- _ => apply N.eqb_neq in E
  | E : (_ && _) = true |- _ => apply andb_true_iff in E; destruct E
  | E : (_ && _) = false |- _ => apply andb_false_iff in E; destruct E
  | E : (_ || _) = true |- _ => apply orb_true_iff in E; destruct E
  | E : (_ || _) = false |- _ => apply orb_false_iff in E; destruct E
  end.

Ltac div_lia := zify; Z.to_euclidean_division_equations; lia.

Ltac split_ifs :=
  repeat match goal with
  | |- context [if ?b then _ else _] => destruct b eqn:?
  end.

(** Rewriting with what the clauses of a definition by cases recorded. *)
Ltac by_equation :=
  repeat match goal with
  | E : readline _ = _ |- _ => rewrite E
  | E : decode _ = _ |- _ => rewrite E
  end; reflexivity.

(** ** The codec *)

Lemma decode_eq bs :
  decode bs =
  match bs with
  | [] => Some []
  | _ :: _ =>
    match decode1 bs with
    | None => None
    | Some (c, rest) => option_map (cons c) (decode rest)
    end
  end.
Proof.
  funelim (decode bs).
  - reflexivity.
  - rewrite H. reflexivity.
  - rewrite e. reflexivity.
Qed.

Lemma decode_some bs c rest :
  decode1 bs = Some (c, rest) -> decode bs = option_map (cons c) (decode rest).
Proof.
  intros H. rewrite decode_eq, H. destruct bs; [discriminate | reflexivity].
Qed.

Lemma decode_none bs : bs <> [] -> decode1 bs = None -> decode bs = None.
Proof.
  intros Hne H. rewrite decode_eq, H. destruct bs; [congruence | reflexivity].
Qed.

(** Induction along the code points that [decode] reads. *)
Lemma decode_ind (P : bytes -> Prop) :
  P [] ->
  (forall bs, bs <> [] -> decode1 bs = None -> P bs) ->
  (forall bs c rest, decode1 bs = Some (c, rest) -> P rest -> P bs) ->
  forall bs, P bs.
Proof.
  intros Hnil Hnone Hsome bs.
  induction bs as [bs IH] using (induction_ltof1 _ (@length byte)).
  destruct bs as [|b r]; [exact Hnil|].
  destruct (decode1 (b :: r)) as [[c rest]|] eqn:H1.
  - apply (Hsome _ _ _ H1), IH. exact (decode1_shorter _ _ _ H1).
  - apply Hnone; [discriminate | exact H1].
Qed.

Lemma decode1_app a b c r :
  decode1 a = Some (c, r) -> decode1 (a ++ b) = Some (c, r ++ b).
Proof.
  unfold decode1.
  destruct a as [|b0 [|b1 [|b2 [|b3 r3]]]]; simpl;
    split_ifs; intros H; inversion H; subst; reflexivity.
Qed.

(** Decoding goes through a concatenation whose first part decodes. *)
Lemma decode_app a b s :
  decode a = Some s -> decode (a ++ b) = option_map (app s) (decode b).
Proof.
  revert s.
  induction a as [| a Hne H1 | a c rest H1 IH] using decode_ind; intros s Hs.
  - inversion Hs. simpl. now destruct (decode b).
  - rewrite (decode_none _ Hne H1) in Hs. discriminate.
  - rewrite (decode_some _ _ _ H1) in Hs.
    destruct (decode rest) as [s'|] eqn:Hrest; [|discriminate].
    inversion Hs; subst s.
    rewrite (decode_some _ _ _ (decode1_app _ b _ _ H1)), (IH s' eq_refl).
    destruct (decode b); reflexivity.
Qed.

Lemma ord_chr n : (n < 256)%N -> ord (chr n) = n.
Proof.
  intros H. unfold ord, chr. destruct (Byte.of_N n) as [b|] eqn:E.
  - now apply Byte.to_of_N.
  - apply Byte.of_N_None_iff in E. lia.
Qed.

Section Roundtrip.
Local Opaque N.add N.mul N.sub N.div N.modulo N.ltb N.leb N.eqb.

Lemma decode1_encode1 c bs rest :
  encode1 c = Some bs -> decode1 (bs ++ rest) = Some (c, rest).
Proof.
  unfold encode1, is_surrogate.
  split_ifs; intros H; inversion H; subst; clear H; bool_to_prop;
  unfold decode1, is_cont, between, payload; simpl;
  rewrite ?ord_chr by div_lia.
  all: repeat match goal with
       | |- context [N.eqb ?a ?b] => destruct (N.eqb a b) eqn:?
       end.
  all: split_ifs; bool_to_prop; try (f_equal; f_equal; div_lia); try div_lia.
Qed.

End Roundtrip.

(** What [encode] writes, [decode] reads back. *)
Lemma decode_encode s data : encode s = Some data -> decode data = Some s.
Proof.
  revert data. induction s as [|c s IH]; simpl; intros data H.
  - now inversion H.
  - destruct (encode1 c) as [bs|] eqn:E1; [|discriminate].
    destruct (encode s) as [data'|]; [|discriminate].
    inversion H; subst data.
    rewrite (decode_some _ _ _ (decode1_encode1 _ _ data' E1)).
    now rewrite (IH data' eq_refl).
Qed.

Lemma encode_app s t :
  encode (s ++ t) =
  match encode s, encode t with
  | Some a, Some b => Some (a ++ b)
  | _, _ => None
  end.
Proof.
  induction s as [|c s IH]; simpl.
  - now destruct (encode t).
  - destruct (encode1 c) as [bs|]; [|reflexivity].
    rewrite IH. destruct (encode s), (encode t); simpl; try reflexivity.
    now rewrite app_assoc.
Qed.

Lemma encode1_scalar c : scalar c -> encode1 c <> None.
Proof.
  unfold scalar, encode1, is_surrogate. intros H.
  split_ifs; try discriminate; bool_to_prop; lia.
Qed.

Lemma encode_encodable s : encodable s -> exists data, encode s = Some data.
Proof.
  induction 1 as [|c s Hc _ [data IH]]; simpl.
  - now exists [].
  - destruct (encode1 c) as [bs|] eqn:E; [|now apply encode1_scalar in E].
    rewrite IH. now exists (bs ++ data).
Qed.

(** ** [str] methods *)

Lemma str_eqb_eq s t : str_eqb s t = true <-> s = t.
Proof.
  unfold str_eqb. destruct (list_eq_dec N.eq_dec s t); split; congruence.
Qed.

Lemma rstrip_nil_iff chars s : rstrip chars s = [] <-> forallb chars s = true.
Proof.
  induction s as [|c s IH]; simpl; [tauto|].
  destruct (rstrip chars s) as [|d t] eqn:E.
  - destruct (chars c); simpl; [|split; discriminate].
    split; intros _; [now apply IH | reflexivity].
  - split; [discriminate|]. intros H. apply andb_true_iff in H.
    destruct H as [_ H]. apply IH in H. discriminate.
Qed.

Lemma rstrip_snoc chars s c :
  rstrip chars (s ++ [c]) = if chars c then rstrip chars s else s ++ [c].
Proof.
  induction s as [|d s IH]; simpl.
  - destruct (chars c); reflexivity.
  - rewrite IH. destruct (chars c) eqn:Hc.
    + reflexivity.
    + destruct (s ++ [c]) eqn:E; [now destruct s | reflexivity].
Qed.

(** What [rstrip] returns never ends in a stripped character. *)
Lemma rstrip_last chars s t c : rstrip chars s = t ++ [c] -> chars c = false.
Proof.
  revert t. induction s as [|d s IH]; intros t; simpl.
  - now destruct t.
  - destruct (rstrip chars s) as [|e u] eqn:E.
    + destruct (chars d) eqn:Hd; [now destruct t|].
      intros H. destruct t as [|x t]; [now inversion H; subst|].
      inversion H. now destruct t.
    + intros H. destruct t as [|x t]; [inversion H|].
      inversion H; subst. now apply (IH t).
Qed.

(** [rstrip] only removes stripped characters, and only from the end. *)
Lemma rstrip_prefix chars s :
  exists t, s = rstrip chars s ++ t /\ forallb chars t = true.
Proof.
  induction s as [|d s [t [IH1 IH2]]]; simpl.
  - now exists [].
  - destruct (rstrip chars s) as [|e u] eqn:E.
    + destruct (chars d) eqn:Hd.
      * exists (d :: t). simpl in *. rewrite Hd, IH2. now subst.
      * exists t. simpl in *. now subst.
    + exists t. split; [|assumption]. simpl. f_equal. exact IH1.
Qed.

Lemma startswith_app prefix s : startswith (prefix ++ s) prefix = true.
Proof.
  induction prefix as [|p prefix IH]; simpl; [reflexivity|].
  now rewrite N.eqb_refl.
Qed.

Lemma startswith_iff s prefix :
  startswith s prefix = true <-> exists t, s = prefix ++ t.
Proof.
  revert s. induction prefix as [|p prefix IH]; intros s; simpl.
  - split; [now exists s | reflexivity].
  - destruct s as [|c s].
    + split; [discriminate | intros [t H]; discriminate].
    + rewrite andb_true_iff, N.eqb_eq, IH. split.
      * intros [-> [t ->]]. now exists t.
      * intros [t H]. inversion H. split; [reflexivity | now exists t].
Qed.

(** ** Lines of a stream *)

Lemma readlines_eq s :
  readlines s =
  match readline s with
  | ([], _) => []
  | (raw, rest) => raw :: readlines rest
  end.
Proof. funelim (readlines s); by_equation. Qed.

Lemma enqueue_output_eq stream q :
  enqueue_output stream q =
  match readline stream with
  | ([], _) => (q, Returned)
  | (raw, rest) =>
    match decode raw with
    | None => (q, Uncaught UnicodeDecodeError)
    | Some text => enqueue_output rest (q ++ [rstrip (one_of [LF]) text])
    end
  end.
Proof. funelim (enqueue_output stream q); by_equation. Qed.

(** Induction along the lines that [readline] cuts off a stream. *)
Lemma readline_ind (P : bytes -> Prop) :
  (forall s rest, readline s = ([], rest) -> P s) ->
  (forall s raw rest, readline s = (raw, rest) -> raw <> [] -> P rest -> P s) ->
  forall s, P s.
Proof.
  intros Hend Hline s.
  induction s as [s IH] using (induction_ltof1 _ (@length byte)).
  destruct (readline s) as [raw rest] eqn:E.
  destruct raw as [|b raw].
  - exact (Hend _ _ E).
  - apply (Hline _ _ _ E); [discriminate|].
    apply IH. apply (readline_shorter _ _ _ E). discriminate.
Qed.

Lemma readline_nil s rest : readline s = ([], rest) -> s = [].
Proof.
  intros H. pose proof (readline_app s) as Happ. rewrite H in Happ. simpl in Happ.
  subst rest. destruct s as [|b s]; [reflexivity|]. simpl in H.
  destruct (is_newline b); [discriminate|].
  destruct (readline s); discriminate.
Qed.

(** The lines of a stream, put end to end, are the stream. *)
Lemma readlines_concat s : concat (readlines s) = s.
Proof.
  induction s as [s rest E | s raw rest E Hne IH] using readline_ind.
  - rewrite readlines_eq, E. simpl. symmetry. exact (readline_nil _ _ E).
  - rewrite readlines_eq, E. destruct raw as [|b raw]; [congruence|].
    simpl concat. rewrite IH. pose proof (readline_app s) as H.
    rewrite E in H. exact H.
Qed.

(** [enqueue_output] is its loop body run over the lines of the stream. *)
Lemma enqueue_output_drained stream : forall q,
  enqueue_output stream q =
  (q ++ fst (drained (readlines stream)), snd (drained (readlines stream))).
Proof.
  induction stream as [s rest E | s raw rest E Hne IH] using readline_ind;
    intros q.
  - rewrite enqueue_output_eq, readlines_eq, E. simpl.
    now rewrite app_nil_r.
  - rewrite enqueue_output_eq, readlines_eq, E.
    destruct raw as [|b raw]; [congruence|]. simpl drained.
    destruct (decode (b :: raw)) as [text|]; simpl.
    + rewrite IH. destruct (drained (readlines rest)) as [lines e]. simpl.
      now rewrite <- app_assoc.
    + now rewrite app_nil_r.
Qed.
(** A line that [readline] returns before the end of the stream ends in the
    only terminator it holds. *)
Lemma readline_terminated s raw rest :
  readline s = (raw, rest) ->
  existsb is_newline s = true ->
  exists body, raw = body ++ [x0a] /\ existsb is_newline body = false.
Proof.
  revert raw rest. induction s as [|b s IH]; intros raw rest; simpl; [discriminate|].
  destruct (is_newline b) eqn:Hb.
  - intros H _. inversion H; subst. exists []. split; [|reflexivity].
    unfold is_newline, ord in Hb. apply N.eqb_eq in Hb.
    pose proof (Byte.of_to_N b) as Hof. rewrite Hb in Hof.
    now inversion Hof.
  - simpl. destruct (readline s) as [line r] eqn:E. intros H Hs.
    inversion H; subst. destruct (IH _ _ eq_refl Hs) as [body [-> Hbody]].
    exists (b :: body). simpl. now rewrite Hb.
Qed.

(** Without a terminator left, [readline] returns all there is. *)
Lemma readline_unterminated s :
  existsb is_newline s = false -> readline s = (s, []).
Proof.
  induction s as [|b s IH]; simpl; [reflexivity|].
  destruct (is_newline b); [discriminate|]. simpl. intros H. now rewrite (IH H).
Qed.

Lemma readline_body body rest :
  existsb is_newline body = false ->
  readline (body ++ x0a :: rest) = (body ++ [x0a], rest).
Proof.
  induction body as [|b body IH]; simpl; [reflexivity|].
  destruct (is_newline b); [discriminate|]. simpl. intros H. now rewrite (IH H).
Qed.

Lemma terminators_app a b : terminators (a ++ b) = terminators a + terminators b.
Proof. unfold terminators. now rewrite filter_app, length_app. Qed.

Lemma terminators_none s : existsb is_newline s = false -> terminators s = 0.
Proof.
  unfold terminators. induction s as [|b s IH]; simpl; [reflexivity|].
  destruct (is_newline b); [discriminate|]. exact IH.
Qed.

Lemma fragment_none s : existsb is_newline s = false -> fragment s = s.
Proof.
  destruct s as [|b s]; [reflexivity|]. intros H. simpl in *. now rewrite H.
Qed.

Lemma fragment_line body rest :
  fragment (body ++ x0a :: rest) = fragment rest.
Proof.
  induction body as [|b body IH].
  - simpl app. simpl. reflexivity.
  - simpl. rewrite IH, existsb_app. simpl. now rewrite !orb_true_r.
Qed.

(** The lines of a stream: the terminated ones, each ending in the only
    terminator it holds, then the fragment after the last terminator if there
    is one. *)
Lemma readlines_shape s :
  exists raws,
    readlines s = raws ++ match fragment s with [] => [] | _ => [fragment s] end
    /\ length raws = terminators s
    /\ Forall (fun raw => exists body,
                 raw = body ++ [x0a] /\ existsb is_newline body = false) raws.
Proof.
  induction s as [s rest E | s raw rest E Hne [raws [IH1 [IH2 IH3]]]]
    using readline_ind.
  - apply readline_nil in E. subst s. exists []. now repeat split.
  - rewrite readlines_eq, E. destruct raw as [|b raw]; [congruence|].
    destruct (existsb is_newline s) eqn:Hs.
    + pose proof (readline_app s) as Happ.
      rewrite E in Happ. simpl fst in Happ. simpl snd in Happ.
      destruct (readline_terminated _ _ _ E Hs) as [body [Hraw Hbody]].
      exists ((b :: raw) :: raws). rewrite IH1.
      rewrite <- Happ, Hraw, <- app_assoc. simpl app.
      rewrite fragment_line, terminators_app, (terminators_none _ Hbody).
      repeat split.
      * simpl. rewrite IH2. reflexivity.
      * constructor; [|exact IH3]. now exists body.
    + rewrite (readline_unterminated _ Hs) in E. inversion E; subst.
      exists []. rewrite (fragment_none _ Hs), (terminators_none _ Hs).
      rewrite readlines_eq. simpl. repeat split. constructor.
Qed.

Lemma drained_all raws :
  Forall (fun raw => decode raw <> None) raws ->
  exists lines,
    Forall2 (fun raw line => line_of raw = Some line) raws lines
    /\ drained raws = (lines, Returned).
Proof.
  induction 1 as [|raw raws Hraw _ [lines [IH1 IH2]]]; simpl.
  - exists []. split; [constructor | reflexivity].
  - destruct (decode raw) as [text|] eqn:E; [|congruence].
    rewrite IH2. exists (rstrip (one_of [LF]) text :: lines).
    split; [|reflexivity]. constructor; [|exact IH1].
    unfold line_of. now rewrite E.
Qed.

Lemma drained_until good bad after :
  Forall (fun raw => decode raw <> None) good ->
  decode bad = None ->
  exists lines,
    Forall2 (fun raw line => line_of raw = Some line) good lines
    /\ drained (good ++ bad :: after) = (lines, Uncaught UnicodeDecodeError).
Proof.
  intros Hgood Hbad.
  induction Hgood as [|raw raws Hraw _ [lines [IH1 IH2]]]; simpl.
  - rewrite Hbad. exists []. split; [constructor | reflexivity].
  - destruct (decode raw) as [text|] eqn:E; [|congruence].
    rewrite IH2. exists (rstrip (one_of [LF]) text :: lines).
    split; [|reflexivity]. constructor; [|exact IH1].
    unfold line_of. now rewrite E.
Qed.

Lemma line_of_no_LF raw line : line_of raw = Some line -> ~ ends_in_LF line.
Proof.
  unfold line_of. destruct (decode raw) as [text|]; [|discriminate].
  intros H [t Ht]. inversion H as [H']. rewrite Ht in H'.
  apply rstrip_last in H'. discriminate.
Qed.

(** ** The pipe and [send] *)

Ltac pipe_simpl :=
  cbn [Pipe.reader_open Pipe.status Pipe.buffered Pipe.delivered].

Lemma reader_open_writable p :
  Pipe.reader_open p = true <-> Pipe.status p = Pipe.Writable.
Proof.
  unfold Pipe.reader_open. destruct (Pipe.status p); split; congruence.
Qed.

Lemma write_flush_open data p :
  Pipe.reader_open p = true ->
  exists p' p'',
    Pipe.write data p = (Ok tt, p') /\ Pipe.flush p' = (Ok tt, p'')
    /\ Pipe.reader_open p'' = true
    /\ Pipe.buffered p'' = []
    /\ Pipe.delivered p'' = Pipe.delivered p ++ Pipe.buffered p ++ data.
Proof.
  intros H. apply reader_open_writable in H.
  destruct p as [o buf del]. pipe_simpl. cbn [Pipe.status] in H. subst o.
  unfold Pipe.write. pipe_simpl.
  destruct (Pipe.size data <=? Pipe.DEFAULT_BUFFER_SIZE - Pipe.size buf)%N.
  - unfold Pipe.flush, Pipe.raw_write. pipe_simpl.
    destruct (buf ++ data) as [|b l] eqn:E.
    + eexists _, _. repeat split. pipe_simpl. now rewrite app_nil_r.
    + eexists _, _. repeat split.
  - unfold Pipe.flush at 1. unfold Pipe.raw_write. pipe_simpl.
    destruct buf as [|b buf];
      destruct (Pipe.DEFAULT_BUFFER_SIZE <? Pipe.size data)%N;
      unfold Pipe.flush, Pipe.raw_write; pipe_simpl.
    all: try destruct data as [|d data]; eexists _, _; repeat split;
      pipe_simpl; cbn [app]; now rewrite <- ?app_assoc, ?app_nil_r.
Qed.

(** Once the read end is gone, something written cannot get past [flush]:
    either [write] itself raises and leaves the stream as it was, or it has
    taken the data into the buffer and [flush] raises and leaves it there. *)
Lemma write_flush_broken data p e :
  Pipe.status p = Pipe.Broken e -> data <> [] ->
  if (Pipe.size data <=? Pipe.DEFAULT_BUFFER_SIZE - Pipe.size (Pipe.buffered p))%N
  then
    Pipe.write data p =
      (Ok tt, Pipe.mk (Pipe.Broken e) (Pipe.buffered p ++ data) (Pipe.delivered p))
    /\ Pipe.flush
         (Pipe.mk (Pipe.Broken e) (Pipe.buffered p ++ data) (Pipe.delivered p))
       = (Raise (Pipe.os_error e),
          Pipe.mk (Pipe.Broken e) (Pipe.buffered p ++ data) (Pipe.delivered p))
  else Pipe.write data p = (Raise (Pipe.os_error e), p).
Proof.
  destruct p as [o buf del]. pipe_simpl. intros -> Hdata.
  unfold Pipe.write. pipe_simpl.
  destruct (Pipe.size data <=? Pipe.DEFAULT_BUFFER_SIZE - Pipe.size buf)%N eqn:Hfit.
  - split; [reflexivity|]. unfold Pipe.flush, Pipe.raw_write. pipe_simpl.
    destruct (buf ++ data) as [|b l] eqn:E; [|reflexivity].
    apply app_eq_nil in E. destruct E as [_ ->]. congruence.
  - unfold Pipe.flush, Pipe.raw_write. pipe_simpl.
    destruct buf as [|b buf]; [|reflexivity].
    destruct (Pipe.DEFAULT_BUFFER_SIZE <? Pipe.size data)%N eqn:Hbig;
      [reflexivity|].
    exfalso. apply N.leb_gt in Hfit. apply N.ltb_ge in Hbig.
    change (Pipe.size []) with 0%N in Hfit. lia.
Qed.

(** On a stream that was closed, [write] raises before it does anything. *)
Lemma write_closed data p :
  Pipe.status p = Pipe.Closed -> Pipe.write data p = (Raise ValueError, p).
Proof. intros H. unfold Pipe.write. now rewrite H. Qed.

Lemma encode_line cmd data :
  encode cmd = Some data -> encode (cmd ++ [LF]) = Some (data ++ [x0a]).
Proof. intros H. rewrite encode_app, H. reflexivity. Qed.

Lemma encode_line_none cmd : encode cmd = None -> encode (cmd ++ [LF]) = None.
Proof. intros H. rewrite encode_app, H. reflexivity. Qed.

(** C8.  For every command text that the codec can encode, [send] on a pipe
    whose reader is there returns normally, and the pipe has then received,
    after whatever was still pending, exactly the UTF-8 bytes of the text
    (bytes that decode back to the text) followed by one line terminator;
    nothing is left in the buffer, so the engine can read the command as soon
    as [send] returns.  Nothing else of the world changes. *)
Theorem send_writes_line_and_flushes (cmd : str) (w : world) :
  encodable cmd ->
  Pipe.reader_open (stdin w) = true ->
  exists data w',
    encode cmd = Some data
    /\ decode data = Some cmd
    /\ send cmd w = (Ok tt, w')
    /\ Pipe.delivered (stdin w') =
       Pipe.delivered (stdin w) ++ Pipe.buffered (stdin w) ++ data ++ [x0a]
    /\ Pipe.buffered (stdin w') = []
    /\ Pipe.reader_open (stdin w') = true
    /\ bestmove w' = bestmove w /\ console w' = console w.
Proof.
  intros Hcmd Hopen.
  destruct (encode_encodable cmd Hcmd) as [data Hdata].
  pose proof (decode_encode cmd data Hdata) as Hback.
  destruct (write_flush_open (data ++ [x0a]) (stdin w) Hopen)
    as [p' [p'' [Hw [Hf [H1 [H2 H3]]]]]].
  exists data, (mkWorld p'' (bestmove w) (console w)).
  unfold send. rewrite (encode_line _ _ Hdata). simpl. rewrite Hw, Hf.
  repeat split; assumption.
Qed.

(** Whatever [send] does, it changes nothing but the buffer of
    [engine.stdin] when it raises. *)
Lemma send_raises cmd w e w' :
  send cmd w = (Raise e, w') ->
  Pipe.delivered (stdin w') = Pipe.delivered (stdin w)
  /\ Pipe.status (stdin w') = Pipe.status (stdin w)
  /\ bestmove w' = bestmove w /\ console w' = console w.
Proof.
  unfold send. destruct (or_raise _ _) as [data|e0];
    [|intros H; inversion H; subst; now repeat split].
  destruct w as [[o buf del] bm con]. cbn [stdin bestmove console].
  unfold Pipe.write, Pipe.flush, Pipe.raw_write. pipe_simpl.
  destruct o;
    repeat match goal with
    | |- context [if ?b then _ else _] => destruct b
    | |- context [match ?l with [] => _ | _ :: _ => _ end] => destruct l eqn:?
    end; cbn; intros H; inversion H; subst; now repeat split.
Qed.

(** C7, amended.  On an [engine.stdin] that cannot be written, every call
    of [send] raises: it never returns as if the command had been sent, and
    nothing is delivered to the engine.  Which exception leaves [send] depends
    on why the stream cannot be written.  When the read end is gone (the
    engine has exited or closed its input) it is the error of the platform
    for such a write, [BrokenPipeError] for [EPIPE] and a plain [OSError] for
    the [EINVAL] of Windows, and a command that [write] had accepted stays in
    the buffer.  When the stream itself was closed it is [ValueError], and
    when the text cannot be encoded it is [UnicodeEncodeError]; both leave
    the world as it was. *)
Theorem send_on_closed_pipe_raises (cmd : str) (w : world) :
  Pipe.reader_open (stdin w) = false ->
  exists e w',
    send cmd w = (Raise e, w')
    /\ Pipe.delivered (stdin w') = Pipe.delivered (stdin w)
    /\ Pipe.status (stdin w') = Pipe.status (stdin w)
    /\ bestmove w' = bestmove w /\ console w' = console w
    /\ match encode cmd, Pipe.status (stdin w) with
       | None, _ => e = UnicodeEncodeError /\ w' = w
       | Some _, Pipe.Closed => e = ValueError /\ w' = w
       | Some data, Pipe.Broken errno =>
         e = Pipe.os_error errno
         /\ Pipe.buffered (stdin w') =
            if (Pipe.size (data ++ [x0a])
                <=? Pipe.DEFAULT_BUFFER_SIZE - Pipe.size (Pipe.buffered (stdin w)))%N
            then Pipe.buffered (stdin w) ++ data ++ [x0a]
            else Pipe.buffered (stdin w)
       | Some _, Pipe.Writable => False
       end.
Proof.
  intros Hclosed.
  assert (Hsend : exists e w',
            send cmd w = (Raise e, w')
            /\ match encode cmd, Pipe.status (stdin w) with
               | None, _ => e = UnicodeEncodeError /\ w' = w
               | Some _, Pipe.Closed => e = ValueError /\ w' = w
               | Some data, Pipe.Broken errno =>
                 e = Pipe.os_error errno
                 /\ Pipe.buffered (stdin w') =
                    if (Pipe.size (data ++ [x0a])
                        <=? Pipe.DEFAULT_BUFFER_SIZE
                            - Pipe.size (Pipe.buffered (stdin w)))%N
                    then Pipe.buffered (stdin w) ++ data ++ [x0a]
                    else Pipe.buffered (stdin w)
               | Some _, Pipe.Writable => False
               end).
  { unfold send. destruct (encode cmd) as [data|] eqn:E.
    - rewrite (encode_line _ _ E). cbn [or_raise].
      unfold Pipe.reader_open in Hclosed.
      destruct (Pipe.status (stdin w)) as [|errno|] eqn:Hst; [discriminate| |].
      + pose proof (write_flush_broken (data ++ [x0a]) (stdin w) errno Hst) as H.
        destruct (Pipe.size (data ++ [x0a])
                  <=? Pipe.DEFAULT_BUFFER_SIZE - Pipe.size (Pipe.buffered (stdin w)))%N.
        * destruct H as [Hw Hf]; [now destruct data|]. rewrite Hw, Hf.
          eexists _, _. split; [reflexivity|]. now split.
        * rewrite H by now destruct data.
          eexists _, _. split; [reflexivity|]. now split.
      + rewrite (write_closed _ _ Hst). eexists _, _. split; [reflexivity|].
        split; [reflexivity | now destruct w].
    - rewrite (encode_line_none _ E). cbn [or_raise].
      eexists _, _. split; [reflexivity|]. now split. }
  destruct Hsend as (e & w' & Hs & Hm). exists e, w'.
  destruct (send_raises cmd w e w' Hs) as (H1 & H2 & H3 & H4).
  now repeat (split; [assumption|]).
Qed.

(** On a stream that the script has closed, [send] raises [ValueError];
    and where the platform answers [EINVAL] to a write on a pipe without a
    reader, it raises a plain [OSError]: neither is [BrokenPipeError]. *)
Lemma closed_stream_raises_value_error :
  Pipe.reader_open (stdin shut_by_script) = false
  /\ send (lit "quit") shut_by_script = (Raise ValueError, shut_by_script)
  /\ fst (send (lit "quit") (vars (hang_up Pipe.EINVAL started)))
     = Raise OSError_EINVAL
  /\ ~ (forall cmd w,
          Pipe.reader_open (stdin w) = false ->
          fst (send cmd w) = Raise BrokenPipeError).
Proof.
  split; [reflexivity|]. split; [reflexivity|]. split; [reflexivity|].
  intros H. specialize (H (lit "quit") shut_by_script eq_refl). discriminate.
Qed.

(** ** The main flow *)

(** A statement after a [print] runs in the world the [print] left. *)
Lemma bind_print {B} a b (k : M B) w :
  bind (print a b) (fun _ => k) w =
  k (mkWorld (stdin w) (bestmove w) (console w ++ a ++ lit " " ++ b ++ [LF])).
Proof. reflexivity. Qed.

(** [send] changes nothing but [engine.stdin]. *)
Lemma send_frame cmd w r w' :
  send cmd w = (r, w') -> bestmove w' = bestmove w /\ console w' = console w.
Proof.
  unfold send. destruct (or_raise _ _) as [data|e].
  - destruct (Pipe.write data (stdin w)) as [[[]|e] p].
    + destruct (Pipe.flush p) as [[[]|e] p']; intros H; inversion H; subst;
        now split.
    + intros H; inversion H; subst; now split.
  - intros H; inversion H; subst; now split.
Qed.

(** The loop of INIT on a line that is not the sentinel after [strip]. *)
Lemma on_line_INIT_other line w :
  strip line <> lit "aeiok" ->
  on_line INIT line w =
  (Ok INIT, mkWorld (stdin w) (bestmove w)
              (console w ++ lit "ENGINE:" ++ lit " " ++ line ++ [LF])).
Proof.
  intros H. unfold on_line. rewrite bind_print.
  destruct (str_eqb (strip line) (lit "aeiok")) eqn:E; [|reflexivity].
  apply str_eqb_eq in E. contradiction.
Qed.

Lemma on_line_INIT_match line w :
  strip line = lit "aeiok" ->
  fst (on_line INIT line w) = Ok READY_CHECK
  \/ exists e, fst (on_line INIT line w) = Raise e.
Proof.
  intros H. unfold on_line. rewrite bind_print.
  apply str_eqb_eq in H. rewrite H. unfold bind.
  destruct (send (lit "isready") _) as [[[]|e] w'].
  - now left.
  - right. now exists e.
Qed.

Lemma on_line_READY_other line w :
  strip line <> lit "readyok" ->
  on_line READY_CHECK line w =
  (Ok READY_CHECK, mkWorld (stdin w) (bestmove w)
              (console w ++ lit "ENGINE:" ++ lit " " ++ line ++ [LF])).
Proof.
  intros H. unfold on_line. rewrite bind_print.
  destruct (str_eqb (strip line) (lit "readyok")) eqn:E; [|reflexivity].
  apply str_eqb_eq in E. contradiction.
Qed.

Lemma on_line_READY_match line w :
  strip line = lit "readyok" ->
  fst (on_line READY_CHECK line w) = Ok SEARCHING
  \/ exists e, fst (on_line READY_CHECK line w) = Raise e.
Proof.
  intros H. unfold on_line. rewrite bind_print.
  apply str_eqb_eq in H. rewrite H. unfold bind.
  repeat match goal with
  | |- context [send ?c ?w] => destruct (send c w) as [[[]|?] ?]
  end; simpl; eauto.
Qed.

(** C3, amended.  The waiting loops compare [line.strip()], the line without
    its leading and trailing whitespace, with the sentinel.  In INIT a line
    whose stripped text is "aeiok" ends the loop (the flow goes on to
    READY_CHECK, or stops on the exception of the [send] that follows), and
    any other line leaves the flow in INIT with nothing sent; the same in
    READY_CHECK with "readyok", going on to SEARCHING.  So a whitespace-padded sentinel
    does match. *)
Theorem sentinel_compared_after_strip (d : driver) (line : str) :
  (at_phase d = INIT ->
     (strip line = lit "aeiok" ->
        at_phase (driver_step d (Line line)) = READY_CHECK
        \/ exists e, at_phase (driver_step d (Line line)) = CRASHED e)
     /\ (strip line <> lit "aeiok" ->
        at_phase (driver_step d (Line line)) = INIT
        /\ stdin (vars (driver_step d (Line line))) = stdin (vars d)))
  /\ (at_phase d = READY_CHECK ->
     (strip line = lit "readyok" ->
        at_phase (driver_step d (Line line)) = SEARCHING
        \/ exists e, at_phase (driver_step d (Line line)) = CRASHED e)
     /\ (strip line <> lit "readyok" ->
        at_phase (driver_step d (Line line)) = READY_CHECK
        /\ stdin (vars (driver_step d (Line line))) = stdin (vars d))).
Proof.
  destruct d as [ph w]. simpl. split; intros ->; split; intros H.
  - destruct (on_line_INIT_match line w H) as [E | [e E]];
      destruct (on_line INIT line w) as [r w']; simpl in E; subst r; simpl; eauto.
  - rewrite (on_line_INIT_other line w H). now split.
  - destruct (on_line_READY_match line w H) as [E | [e E]];
      destruct (on_line READY_CHECK line w) as [r w']; simpl in E; subst r; simpl; eauto.
  - rewrite (on_line_READY_other line w H). now split.
Qed.

Example handshaken_searching : at_phase handshaken = SEARCHING.
Proof. vm_compute. reflexivity. Qed.

(** The line "aeiok  ", the sentinel with two trailing spaces, is not the
    sentinel, and yet it takes the main flow out of INIT. *)
Lemma padded_sentinel_matches :
  lit "aeiok  " <> lit "aeiok"
  /\ at_phase started = INIT
  /\ at_phase (driver_step started (Line (lit "aeiok  "))) = READY_CHECK.
Proof. vm_compute. repeat split. discriminate. Qed.

(** The polling loop on a line that does not begin with "bestmove". *)
Lemma on_line_SEARCHING_other line w :
  startswith line (lit "bestmove") = false ->
  on_line SEARCHING line w =
  (Ok SEARCHING, mkWorld (stdin w) (bestmove w)
                   (console w ++ lit "ENGINE:" ++ lit " " ++ line ++ [LF])).
Proof. intros H. unfold on_line. rewrite bind_print, H. reflexivity. Qed.

(** The polling loop on a line that begins with "bestmove". *)
Lemma on_line_SEARCHING_found line w :
  startswith line (lit "bestmove") = true ->
  exists r p,
    on_line SEARCHING line w =
    (r, mkWorld p (Some line)
          ((console w ++ lit "ENGINE:" ++ lit " " ++ line ++ [LF])
           ++ ([LF] ++ lit "Final engine move:") ++ lit " " ++ line ++ [LF]))
    /\ (r = Ok DONE \/ exists e, r = Raise e).
Proof.
  intros H. unfold on_line. rewrite bind_print, H.
  unfold bind, assign_bestmove, print. cbn [stdin bestmove console].
  match goal with |- context [send ?c ?w] =>
    destruct (send c w) as [[[]|e] w'] eqn:E; apply send_frame in E;
    destruct E as [E1 E2]; destruct w' as [p bm con]; simpl in E1, E2; subst
  end.
  - exists (Ok DONE), p. split; [reflexivity | now left].
  - exists (Raise e), p. split; [reflexivity | right; now exists e].
Qed.

(** C4, amended.  In the polling loop, a line that begins with "bestmove"
    is stored whole in [bestmove], marker included, whatever follows the
    marker; for the line "bestmove Hh2n" the result is "bestmove Hh2n".  The
    flow then sends "quit" and waits for the engine to exit, or stops on the
    exception of that [send]; the result is stored either way. *)
Theorem bestmove_is_the_whole_line (d : driver) (line : str) :
  at_phase d = SEARCHING ->
  startswith line (lit "bestmove") = true ->
  bestmove (vars (driver_step d (Line line))) = Some line
  /\ (at_phase (driver_step d (Line line)) = DONE
      \/ exists e, at_phase (driver_step d (Line line)) = CRASHED e).
Proof.
  destruct d as [ph w]. cbn [at_phase vars driver_step]. intros -> H.
  destruct (on_line_SEARCHING_found line w H) as [r [p [E Hr]]].
  rewrite E. destruct Hr as [-> | [e ->]]; simpl; eauto.
Qed.

(** A full session on the lines "aeiok", "readyok", "bestmove Hh2n": the
    result is the whole last line, not "Hh2n". *)
Lemma bestmove_text_is_not_the_move :
  let d := run_driver started
             (map Line [lit "aeiok"; lit "readyok"; lit "bestmove Hh2n"]) in
  at_phase d = DONE
  /\ bestmove (vars d) = Some (lit "bestmove Hh2n")
  /\ bestmove (vars d) <> Some (lit "Hh2n").
Proof. vm_compute. repeat split. discriminate. Qed.

Lemma polling_step d p :
  at_phase d = SEARCHING -> no_bestmove p ->
  at_phase (driver_step d p) = SEARCHING
  /\ stdin (vars (driver_step d p)) = stdin (vars d)
  /\ bestmove (vars (driver_step d p)) = bestmove (vars d).
Proof.
  destruct d as [ph w]. cbn [at_phase vars]. intros -> Hp.
  destruct p as [line|]; cbn [driver_step at_phase vars no_bestmove] in *.
  - rewrite (on_line_SEARCHING_other line w Hp). now repeat split.
  - now repeat split.
Qed.

(** C1, amended.  While no line beginning with "bestmove" arrives, the
    polling loop goes on, whatever the number of turns: after any sequence of
    [queue.Empty] timeouts and other lines the main flow is still in
    SEARCHING, it has raised nothing, it has sent nothing more (no retry of
    "go"), and [bestmove] is unset.  There is no deadline. *)
Theorem search_polls_without_deadline (d : driver) (ps : list polled) :
  at_phase d = SEARCHING ->
  Forall no_bestmove ps ->
  at_phase (run_driver d ps) = SEARCHING
  /\ stdin (vars (run_driver d ps)) = stdin (vars d)
  /\ bestmove (vars (run_driver d ps)) = bestmove (vars d).
Proof.
  intros Hd Hps. revert d Hd.
  induction Hps as [|p ps Hp _ IH]; intros d Hd; simpl.
  - now repeat split.
  - destruct (polling_step d p Hd Hp) as [H1 [H2 H3]].
    destruct (IH _ H1) as [H4 [H5 H6]]. repeat split; congruence.
Qed.

Lemma run_driver_empty d n : run_driver d (repeat Empty n) = d.
Proof. induction n as [|n IH]; simpl; [reflexivity | exact IH]. Qed.

(** After the handshake and the setup, with the move time set, there is no
    number of empty polls after which the main flow has left SEARCHING. *)
Lemma search_never_times_out :
  at_phase handshaken = SEARCHING
  /\ ~ (exists n, at_phase (run_driver handshaken (repeat Empty n)) <> SEARCHING).
Proof.
  split; [vm_compute; reflexivity|].
  intros [n H]. rewrite run_driver_empty in H. apply H. vm_compute. reflexivity.
Qed.

Lemma one_of_LF c : one_of [LF] c = (c =? LF)%N.
Proof. unfold one_of. simpl. now rewrite orb_false_r. Qed.

(** One line ended in "\r\n", as the reader's loop takes it. *)
Lemma enqueue_output_crlf body text rest q0 :
  decode body = Some text ->
  existsb is_newline body = false ->
  enqueue_output (body ++ [x0d; x0a] ++ rest) q0
  = enqueue_output rest (q0 ++ [text ++ [CR]]).
Proof.
  intros Hdec Hbody. rewrite enqueue_output_eq.
  replace (body ++ [x0d; x0a] ++ rest) with ((body ++ [x0d]) ++ x0a :: rest)
    by now rewrite <- app_assoc.
  rewrite readline_body by (rewrite existsb_app, Hbody; reflexivity).
  rewrite <- app_assoc. simpl app.
  rewrite (decode_app body [x0d; x0a] text Hdec).
  change (decode [x0d; x0a]) with (Some [CR; LF]). simpl option_map.
  destruct (body ++ [x0d; x0a]) eqn:E; [now destruct body|].
  f_equal. f_equal. f_equal.
  change (text ++ [CR; LF]) with (text ++ [CR] ++ [LF]).
  now rewrite app_assoc, rstrip_snoc, one_of_LF, rstrip_snoc, one_of_LF.
Qed.

Lemma enqueue_output_crlf_lines bodies texts rest : forall q0,
  Forall2 (fun body text =>
             decode body = Some text /\ existsb is_newline body = false)
    bodies texts ->
  enqueue_output (crlf_lines bodies ++ rest) q0
  = enqueue_output rest (q0 ++ map (fun text => text ++ [CR]) texts).
Proof.
  intros q0 H. revert q0.
  induction H as [|body text bodies texts [Hd Hb] _ IH]; intros q0.
  - cbn. now rewrite app_nil_r.
  - unfold crlf_lines in *. cbn [map concat].
    rewrite <- !app_assoc. rewrite (enqueue_output_crlf body text _ q0 Hd Hb).
    rewrite IH. cbn [map]. now rewrite <- app_assoc.
Qed.

(** What [rstrip("\n")] makes of a text. *)
Lemma rstrip_LF_spec text : without_trailing_LF text (rstrip (one_of [LF]) text).
Proof.
  destruct (rstrip_prefix (one_of [LF]) text) as [lfs [H1 H2]].
  exists lfs. split; [exact H1|]. split.
  - apply Forall_forall. intros c Hc.
    rewrite forallb_forall in H2. specialize (H2 c Hc).
    rewrite one_of_LF in H2. now apply N.eqb_eq in H2.
  - intros [t Ht]. apply rstrip_last in Ht. discriminate.
Qed.

(** The Lines that the reader's loop puts, line by line, and where it
    stops. *)
Lemma drained_spec raws :
  Forall2 (fun raw line =>
             exists text, decode raw = Some text /\ without_trailing_LF text line)
    (firstn (length (fst (drained raws))) raws) (fst (drained raws))
  /\ (snd (drained raws) = Returned
        /\ length (fst (drained raws)) = length raws
      \/ snd (drained raws) = Uncaught UnicodeDecodeError
         /\ exists bad,
              nth_error raws (length (fst (drained raws))) = Some bad
              /\ decode bad = None).
Proof.
  induction raws as [|raw raws [IH1 IH2]]; cbn [drained].
  - split; [constructor | left; now split].
  - destruct (decode raw) as [text|] eqn:E.
    + destruct (drained raws) as [lines e]. cbn [fst snd length firstn] in *.
      split.
      * constructor; [|exact IH1]. exists text. split; [exact E|].
        apply rstrip_LF_spec.
      * destruct IH2 as [[-> Hl] | [-> Hbad]]; [left | right];
          (split; [reflexivity|]); [now rewrite Hl | exact Hbad].
    + cbn [fst snd length firstn]. split; [constructor|].
      right. split; [reflexivity|]. now exists raw.
Qed.

(** C10.  Every Line that the reader puts is the text of one line of the
    stream without the "\n" characters at its end and with everything else
    that the line ends in: whatever the stream holds, the queue afterwards is
    the queue before followed by one such Line for each line read, in order,
    up to the end of the stream or to the first line that does not decode.
    For an engine that ends its lines in "\r\n", the Lines put are the texts
    of the lines each followed by "\r"; and a "bestmove" line that ends in
    "\r" is stored in [bestmove] with its "\r". *)
Theorem crlf_line_keeps_cr
  (stream rest : bytes) (bodies : list bytes) (texts : list str)
  (q : list str) (d : driver) (move : str) :
  Forall2 (fun body text =>
             decode body = Some text /\ existsb is_newline body = false)
    bodies texts ->
  at_phase d = SEARCHING ->
  (exists lines,
     fst (enqueue_output stream q) = q ++ lines
     /\ Forall2 (fun raw line =>
                   exists text,
                     decode raw = Some text /\ without_trailing_LF text line)
          (firstn (length lines) (readlines stream)) lines
     /\ (snd (enqueue_output stream q) = Returned
           /\ length lines = length (readlines stream)
         \/ snd (enqueue_output stream q) = Uncaught UnicodeDecodeError
            /\ exists bad,
                 nth_error (readlines stream) (length lines) = Some bad
                 /\ decode bad = None))
  /\ enqueue_output (crlf_lines bodies ++ rest) q
     = enqueue_output rest (q ++ map (fun text => text ++ [CR]) texts)
  /\ enqueue_output (crlf_lines bodies) q
     = (q ++ map (fun text => text ++ [CR]) texts, Returned)
  /\ bestmove (vars (driver_step d (Line (lit "bestmove" ++ move ++ [CR]))))
     = Some (lit "bestmove" ++ move ++ [CR]).
Proof.
  intros Hcrlf Hd. split; [|split; [|split]].
  - exists (fst (drained (readlines stream))).
    rewrite enqueue_output_drained. cbn [fst snd].
    split; [reflexivity|]. apply drained_spec.
  - exact (enqueue_output_crlf_lines bodies texts rest q Hcrlf).
  - rewrite <- (app_nil_r (crlf_lines bodies)).
    rewrite (enqueue_output_crlf_lines bodies texts [] q Hcrlf).
    rewrite enqueue_output_eq. reflexivity.
  - destruct d as [ph w]. cbn [at_phase vars driver_step] in *. subst ph.
    destruct (on_line_SEARCHING_found (lit "bestmove" ++ move ++ [CR]) w
                (startswith_app _ _)) as [r [p [E _]]].
    rewrite E. now destruct r.
Qed.


(** C6, amended.  For every stream all of whose lines are valid UTF-8 and
    that holds n line terminators, the reader returns normally after putting,
    in the order of the stream, exactly n Lines for the n terminated lines
    and then, if the stream ends in an unterminated fragment, one more Line
    for that fragment (it is not discarded).  Each Line is the decoded raw
    line without its trailing terminator. *)
Theorem drain_lines_of_valid_stream (stream : bytes) (q : list str) :
  Forall (fun raw => decode raw <> None) (readlines stream) ->
  exists raws lines partial,
    enqueue_output stream q = (q ++ lines ++ partial, Returned)
    /\ length lines = terminators stream
    /\ readlines stream =
       raws ++ match fragment stream with [] => [] | _ => [fragment stream] end
    /\ concat (readlines stream) = stream
    /\ Forall2 (fun raw line => line_of raw = Some line) raws lines
    /\ Forall2 (fun raw line => line_of raw = Some line)
         match fragment stream with [] => [] | _ => [fragment stream] end partial
    /\ Forall (fun line => ~ ends_in_LF line) (lines ++ partial).
Proof.
  intros Hvalid.
  destruct (readlines_shape stream) as [raws [Hshape [Hlen Hterm]]].
  destruct (drained_all _ Hvalid) as [all [Hall Hdrained]].
  rewrite Hshape in Hall. apply Forall2_app_inv_l in Hall.
  destruct Hall as [lines [partial [Hlines [Hpartial ->]]]].
  exists raws, lines, partial.
  rewrite enqueue_output_drained, Hdrained. simpl.
  repeat split; try assumption.
  - rewrite <- Hlen. symmetry. exact (Forall2_length Hlines).
  - apply readlines_concat.
  - apply Forall_app. split.
    + clear - Hlines. induction Hlines; constructor; eauto using line_of_no_LF.
    + clear - Hpartial. induction Hpartial; constructor; eauto using line_of_no_LF.
Qed.

(** The stream "\xff\n" holds one terminator and yields no Line. *)
Lemma drain_line_count_fails :
  ~ (forall stream : bytes,
       terminators stream <= length (fst (enqueue_output stream []))).
Proof. intros H. specialize (H [xff; x0a]). vm_compute in H. lia. Qed.

(** C2, amended.  A line whose bytes are not valid UTF-8 is neither dropped
    nor replaced: the reader puts the Lines of the lines before it, then
    [UnicodeDecodeError] leaves [enqueue_output] and ends the reader thread.
    Neither that line nor any line after it reaches the queue. *)
Theorem drain_dies_at_malformed_line
  (stream : bytes) (q : list str) (good : list bytes) (bad : bytes)
  (after : list bytes) :
  readlines stream = good ++ bad :: after ->
  Forall (fun raw => decode raw <> None) good ->
  decode bad = None ->
  exists lines,
    Forall2 (fun raw line => line_of raw = Some line) good lines
    /\ enqueue_output stream q = (q ++ lines, Uncaught UnicodeDecodeError).
Proof.
  intros Hsplit Hgood Hbad.
  destruct (drained_until good bad after Hgood Hbad) as [lines [H1 H2]].
  exists lines. split; [exact H1|].
  now rewrite enqueue_output_drained, Hsplit, H2.
Qed.

(** ** The queue between the two threads *)

(** One step keeps the account of the queue: what was there and what was
    put is what was taken and what is left, in this order. *)
Lemma step_queue s l s' :
  step s l s' -> q s ++ puts [l] = gets [l] ++ q s'.
Proof.
  intros H. destruct H; simpl; rewrite ?app_nil_r; try reflexivity.
  rewrite H0. reflexivity.
Qed.

Lemma puts_app t u : puts (t ++ u) = puts t ++ puts u.
Proof.
  induction t as [|l t IH]; simpl; [reflexivity|].
  destruct l; simpl; now rewrite ?IH.
Qed.

Lemma gets_app t u : gets (t ++ u) = gets t ++ gets u.
Proof.
  induction t as [|l t IH]; simpl; [reflexivity|].
  destruct l as [| | |[line|]|]; simpl; now rewrite ?IH.
Qed.

(** C9.  In every run of the two threads, from the launch or from any later
    state and through all phases of the main flow, the Lines that the [q.get]
    calls of the main flow have returned, followed by the Lines still in the
    queue, are exactly the Lines that were in the queue followed by those the
    reader has put, in the order it put them: no Line is skipped, reordered,
    merged with another or delivered twice.  From the launch, where the queue
    is empty, the Lines taken are a prefix of the Lines put. *)
Theorem queue_is_fifo (s0 : system) (t : list label) (s : system) :
  steps s0 t s ->
  q s0 ++ puts t = gets t ++ q s
  /\ (q s0 = [] -> gets t = firstn (length (gets t)) (puts t)).
Proof.
  intros Hsteps.
  assert (Hq : q s0 ++ puts t = gets t ++ q s).
  { induction Hsteps as [s | s l s1 t s2 Hstep _ IH].
    - simpl. now rewrite app_nil_r.
    - change (l :: t) with ([l] ++ t). rewrite puts_app, gets_app.
      rewrite app_assoc, (step_queue _ _ _ Hstep), <- !app_assoc.
      now rewrite IH. }
  split; [exact Hq|]. intros H0. rewrite H0 in Hq. simpl in Hq.
  rewrite Hq, firstn_app, Nat.sub_diag, firstn_all. simpl.
  now rewrite app_nil_r.
Qed.

(** ** A blocking [q.get()] on an empty queue *)

Lemma step_blocked s l s' e :
  step s l s' ->
  blocked s -> reader s = Ended e ->
  blocked s' /\ reader s' = Ended e
  /\ at_phase (main s') = at_phase (main s) /\ gets [l] = [].
Proof.
  intros H [Hph Hq] Hr. unfold blocked.
  destruct H; simpl in *; try congruence; try (now repeat split);
    destruct Hph; congruence.
Qed.

(** C5, amended.  A [q.get()] without timeout returns only when a line is
    available.  The end of the reader thread closes nothing: once the reader
    has ended, by reaching the end of the stream or by an exception, and the
    queue is empty, the main flow stays blocked in the same [q.get()] in
    every continuation, whatever the engine does. *)
Theorem blocking_get_waits_for_a_line
  (s : system) (e : ending) (t : list label) (s' : system) :
  blocked s ->
  reader s = Ended e ->
  steps s t s' ->
  at_phase (main s') = at_phase (main s) /\ gets t = [] /\ q s' = [].
Proof.
  intros Hb Hr Hsteps. revert Hb Hr.
  induction Hsteps as [s | s l s1 t s2 Hstep _ IH]; intros Hb Hr.
  - destruct Hb as [_ Hq]. now repeat split.
  - destruct (step_blocked _ _ _ _ Hstep Hb Hr) as [Hb1 [Hr1 [Hph Hg]]].
    destruct (IH Hb1 Hr1) as [H1 [H2 H3]].
    change (l :: t) with ([l] ++ t). rewrite gets_app, Hg, H2.
    repeat split; congruence.
Qed.

Lemma abandoned_reached : steps initial [Tau; Exit; Tau] abandoned.
Proof.
  apply (steps_cons initial Tau (mkSys true (mkOut [] false) Running [] started)).
  { exact (main_start initial eq_refl). }
  apply (steps_cons _ Exit
           (mkSys false (mkOut [] true) Running [] (hang_up Pipe.EPIPE started))).
  { exact (engine_exit (mkSys true (mkOut [] false) Running [] started)
             Pipe.EPIPE eq_refl). }
  apply (steps_cons _ Tau abandoned); [|apply steps_nil].
  exact (reader_close
           (mkSys false (mkOut [] true) Running [] (hang_up Pipe.EPIPE started)) []
           eq_refl eq_refl eq_refl eq_refl).
Qed.

(** The engine exits right after the launch.  The reader sees the end of the
    stream and returns; the queue is empty; the main flow is in the [q.get()]
    of INIT, and nothing can happen any more. *)
Lemma blocking_get_never_returns :
  steps initial [Tau; Exit; Tau] abandoned
  /\ reader abandoned = Ended Returned
  /\ q abandoned = []
  /\ at_phase (main abandoned) = INIT
  /\ ~ (exists l s', step abandoned l s').
Proof.
  split; [exact abandoned_reached|]. repeat split.
  intros [l [s' H]]. inversion H; subst; simpl in *; discriminate.
Qed.

(** ** The polling loop among the threads *)

Lemma step_searching s l s' :
  step s l s' ->
  at_phase (main s) = SEARCHING ->
  Forall no_bestmove (polls [l]) ->
  at_phase (main s') = SEARCHING
  /\ bestmove (vars (main s')) = bestmove (vars (main s)).
Proof.
  intros Hstep Hph Hl.
  destruct Hstep; cbn [main at_phase vars hang_up bestmove] in *;
    try congruence; try (now split).
  - inversion Hl as [|p ps Hp _]; subst.
    destruct (polling_step (main s) (Line line) Hph Hp) as [H1 [_ H3]].
    now split.
Qed.

Lemma polls_app t u : polls (t ++ u) = polls t ++ polls u.
Proof.
  induction t as [|l t IH]; simpl; [reflexivity|].
  destruct l; simpl; now rewrite ?IH.
Qed.

(** X15.  In every run in which no [q.get] returns a line beginning with
    "bestmove", the main flow stays in its polling loop; and while the queue
    is empty the next poll is always there to take. *)
Theorem polling_goes_on s t s' :
  steps s t s' ->
  at_phase (main s) = SEARCHING ->
  Forall no_bestmove (polls t) ->
  at_phase (main s') = SEARCHING
  /\ bestmove (vars (main s')) = bestmove (vars (main s))
  /\ (q s' = [] -> step s' (Get Empty) s').
Proof.
  intros Hsteps. induction Hsteps as [s | s l s1 t s2 Hstep _ IH]; intros Hph Ht.
  - split; [exact Hph | split; [reflexivity|]].
    intros Hq. destruct s as [a o r qq m]. simpl in *. subst qq.
    exact (main_empty (mkSys a o r [] m) Hph eq_refl).
  - change (l :: t) with ([l] ++ t) in Ht. rewrite polls_app in Ht.
    apply Forall_app in Ht. destruct Ht as [Hl Ht].
    destruct (step_searching _ _ _ Hstep Hph Hl) as [H1 H2].
    destruct (IH H1 Ht) as [H3 [H4 H5]].
    split; [exact H3 | split; [congruence | exact H5]].
Qed.

(** A [q.get] of a waiting loop returns the oldest Line as soon as there is
    one. *)
Lemma get_returns_oldest s line rest :
  waiting (at_phase (main s)) = true ->
  q s = line :: rest ->
  step s (Get (Line line))
    (mkSys (engine_alive s) (stdout s) (reader s) rest
       (driver_step (main s) (Line line))).
Proof. intros Hw Hq. exact (main_get s line rest Hw Hq). Qed.

(** ** The reader thread and [enqueue_output] *)

Lemma complete_has_newline c :
  complete c -> c <> [] -> existsb is_newline c = true.
Proof.
  intros [-> | [c' ->]] Hne; [congruence|].
  rewrite existsb_app. simpl. now rewrite orb_true_r.
Qed.

Lemma complete_tail a b : complete (a ++ b) -> b <> [] -> complete b.
Proof.
  intros [H | [c' H]] Hb.
  - apply app_eq_nil in H. destruct H. congruence.
  - right. destruct (exists_last Hb) as [b' [z ->]].
    rewrite app_assoc in H. apply app_inj_tail in H. destruct H as [_ ->].
    now exists b'.
Qed.

Lemma complete_app a b : complete a -> complete b -> complete (a ++ b).
Proof.
  intros Ha [-> | [b' ->]].
  - now rewrite app_nil_r.
  - right. exists (a ++ b'). now rewrite app_assoc.
Qed.

(** Reading a stream line by line can be resumed where a line ended. *)
Lemma readlines_app c x :
  complete c -> readlines (c ++ x) = readlines c ++ readlines x.
Proof.
  induction c as [c rest E | c raw rest E Hne IH] using readline_ind; intros Hc.
  - apply readline_nil in E. subst c. simpl. now rewrite (readlines_eq []).
  - assert (Hcne : c <> []).
    { intros ->. simpl in E. inversion E. congruence. }
    pose proof (complete_has_newline c Hc Hcne) as Hnl.
    destruct (readline_terminated _ _ _ E Hnl) as [body [-> Hbody]].
    pose proof (readline_app c) as Happ. rewrite E in Happ. simpl in Happ.
    rewrite (readlines_eq c), E.
    destruct (body ++ [x0a]) as [|b0 l0] eqn:Eb; [now destruct body|].
    rewrite <- Eb in *. clear Eb b0 l0.
    rewrite <- Happ at 1. rewrite <- !app_assoc. simpl app.
    rewrite (readlines_eq (body ++ x0a :: rest ++ x)).
    rewrite (readline_body body (rest ++ x) Hbody).
    destruct (body ++ [x0a]) as [|b0 l0] eqn:Eb; [now destruct body|].
    simpl. f_equal.
    destruct rest as [|r rest'].
    + simpl. now rewrite (readlines_eq []).
    + apply IH. rewrite <- Happ in Hc. rewrite <- Eb in Hc.
      apply (complete_tail _ _ Hc). discriminate.
Qed.

(** A line that [readline] returned, read again on its own. *)
Lemma readlines_line s raw rest :
  readline s = (raw, rest) -> raw <> [] -> readlines raw = [raw].
Proof.
  intros E Hne. destruct (existsb is_newline s) eqn:Hs.
  - destruct (readline_terminated _ _ _ E Hs) as [body [-> Hbody]].
    rewrite readlines_eq.
    replace (body ++ [x0a]) with (body ++ x0a :: []) by reflexivity.
    rewrite (readline_body body [] Hbody).
    destruct (body ++ [x0a]) eqn:Eb; [now destruct body|].
    now rewrite (readlines_eq []).
  - rewrite (readline_unterminated _ Hs) in E. inversion E; subst.
    rewrite readlines_eq, (readline_unterminated _ Hs).
    destruct raw; [congruence|]. now rewrite (readlines_eq []).
Qed.

Lemma drained_app l1 l2 p1 :
  drained l1 = (p1, Returned) ->
  drained (l1 ++ l2) = (p1 ++ fst (drained l2), snd (drained l2)).
Proof.
  revert p1. induction l1 as [|raw l1 IH]; intros p1; simpl.
  - intros H. inversion H. now destruct (drained l2).
  - destruct (decode raw) as [text|]; [|discriminate].
    destruct (drained l1) as [lines e] eqn:E. intros H. inversion H; subst.
    now rewrite (IH lines eq_refl).
Qed.

Lemma terminated_complete raw : terminated raw -> complete raw.
Proof. intros [body [-> _]]. right. now exists body. Qed.

Lemma readable_unterminated o :
  readable o = true -> existsb is_newline (unread o) = false -> at_eof o = true.
Proof. unfold readable. intros H E. now rewrite E in H. Qed.

Lemma step_reader_at E P s l s' :
  step s l s' ->
  reader_at E P s ->
  reader_at (E ++ emitted [l]) (P ++ puts [l]) s'.
Proof.
  intros Hstep [Heof Hinv].
  destruct Hstep; unfold reader_at; cbn [emitted puts]; rewrite ?app_nil_r;
    cbn [reader stdout engine_alive at_eof unread] in *.
  - (* the engine writes *)
    rewrite H in Heof. simpl in Heof. split; [now rewrite Heof|].
    destruct (reader s) as [|[|e]].
    + destruct Hinv as [c [HE [Hd Hc]]]. exists c.
      split; [now rewrite HE, <- app_assoc|]. split; [exact Hd|].
      left. destruct Hc as [Hc | [_ Hc]]; [exact Hc | congruence].
    + destruct Hinv as [Hdead _]. congruence.
    + destruct Hinv as [He [c [bad [u [HE [Hd [Hc [Hbad Hshape]]]]]]]].
      split; [exact He|]. exists c, bad, (u ++ data).
      split; [now rewrite HE, <- !app_assoc|].
      repeat split; try assumption.
      left. destruct Hshape as [Ht | [_ [_ [_ Hdead]]]]; [exact Ht | congruence].
  - (* the engine exits *)
    split; [reflexivity|].
    destruct (reader s) as [|[|x]].
    + destruct Hinv as [c [HE [Hd Hc]]]. exists c. repeat split; try assumption.
      destruct Hc as [Hc | [Hu _]]; [now left | now right].
    + destruct Hinv as [_ Hinv]. now split.
    + destruct Hinv as [He [c [bad [u [HE [Hd [Hc [Hbad Hshape]]]]]]]].
      split; [exact He|]. exists c, bad, u. repeat split; try assumption.
      destruct Hshape as [Ht | [H1 [H2 [H3 _]]]]; [now left | right; now repeat split].
  - (* the engine closes its input *)
    rewrite H in Heof, Hinv. split; [exact Heof | exact Hinv].
  - (* the reader puts a Line *)
    rewrite H in Hinv. split; [exact Heof|].
    destruct Hinv as [c [HE [Hd Hc]]].
    assert (Hcc : complete c).
    { destruct Hc as [Hc | [Hu _]]; [exact Hc|].
      rewrite Hu in H2. simpl in H2. inversion H2. congruence. }
    pose proof (readline_app (unread (stdout s))) as Happ.
    rewrite H2 in Happ. simpl in Happ.
    exists (c ++ raw). split; [now rewrite HE, <- Happ, <- app_assoc|]. split.
    + rewrite (readlines_app c raw Hcc), (drained_app _ _ _ Hd).
      rewrite (readlines_line _ _ _ H2 H3). simpl. now rewrite H4.
    + destruct (existsb is_newline (unread (stdout s))) eqn:Hnl.
      * left. apply complete_app; [exact Hcc|].
        apply terminated_complete. exact (readline_terminated _ _ _ H2 Hnl).
      * right. rewrite (readline_unterminated _ Hnl) in H2. inversion H2; subst.
        split; [reflexivity | exact (readable_unterminated _ H1 Hnl)].
  - (* the reader dies on a line *)
    rewrite H in Hinv. split; [exact Heof|].
    destruct Hinv as [c [HE [Hd Hc]]].
    assert (Hcc : complete c).
    { destruct Hc as [Hc | [Hu _]]; [exact Hc|].
      rewrite Hu in H2. simpl in H2. inversion H2. congruence. }
    pose proof (readline_app (unread (stdout s))) as Happ.
    rewrite H2 in Happ. simpl in Happ.
    split; [reflexivity|]. exists c, raw, rest.
    split; [now rewrite HE, <- Happ|]. repeat split; try assumption.
    destruct (existsb is_newline (unread (stdout s))) eqn:Hnl.
    + left. exact (readline_terminated _ _ _ H2 Hnl).
    + right. rewrite (readline_unterminated _ Hnl) in H2. inversion H2; subst.
      repeat split; try assumption.
      pose proof (readable_unterminated _ H1 Hnl) as Ht. rewrite Heof in Ht.
      now destruct (engine_alive s).
  - (* the reader sees the end of the stream *)
    rewrite H in Hinv. split; [exact Heof|].
    destruct Hinv as [c [HE [Hd Hc]]].
    apply readline_nil in H2.
    assert (Ht : at_eof (stdout s) = true).
    { apply (readable_unterminated _ H1). now rewrite H2. }
    split.
    + rewrite Heof in Ht. now destruct (engine_alive s).
    + exists c. split; [|exact Hd]. now rewrite HE, H2, app_nil_r.
  - split; [exact Heof | exact Hinv].
  - split; [exact Heof | exact Hinv].
  - split; [exact Heof | exact Hinv].
  - rewrite H0 in Heof, Hinv. split; [exact Heof | exact Hinv].
Qed.

Lemma steps_reader_at E P s t s' :
  steps s t s' ->
  reader_at E P s ->
  reader_at (E ++ emitted t) (P ++ puts t) s'.
Proof.
  intros Hsteps. revert E P.
  induction Hsteps as [s | s l s1 t s2 Hstep _ IH]; intros E P Hinv.
  - simpl. now rewrite !app_nil_r.
  - apply (step_reader_at _ _ _ _ _ Hstep) in Hinv. apply IH in Hinv.
    rewrite <- !app_assoc in Hinv.
    replace (emitted (l :: t)) with (emitted [l] ++ emitted t)
      by (destruct l; simpl; now rewrite ?app_nil_r).
    replace (puts (l :: t)) with (puts [l] ++ puts t) by (now destruct l).
    exact Hinv.
Qed.

Lemma initial_reader_at : reader_at [] [] initial.
Proof.
  split; [reflexivity|]. exists []. repeat split. left. now left.
Qed.

(** The first line of a stream that begins with a whole raw line. *)
Lemma readlines_cons bad u :
  terminated bad \/ (bad <> [] /\ existsb is_newline bad = false /\ u = []) ->
  exists rest, readlines (bad ++ u) = bad :: rest.
Proof.
  intros [[body [-> Hbody]] | [Hne [Hnl ->]]].
  - rewrite readlines_eq, <- app_assoc. simpl app.
    rewrite (readline_body body u Hbody).
    destruct (body ++ [x0a]) eqn:E; [now destruct body|]. now eexists.
  - rewrite app_nil_r, readlines_eq, (readline_unterminated _ Hnl).
    destruct bad; [congruence|]. now eexists.
Qed.

(** X6.  Whenever the reader thread has ended, the Lines it has put and
    the way it ended are those of [enqueue_output] run on all that the engine
    has written. *)
Theorem reader_thread_is_enqueue_output t s e :
  steps initial t s ->
  reader s = Ended e ->
  enqueue_output (emitted t) [] = (puts t, e).
Proof.
  intros Hsteps Hr.
  pose proof (steps_reader_at _ _ _ _ _ Hsteps initial_reader_at) as [_ Hinv].
  simpl in Hinv. rewrite Hr in Hinv. rewrite enqueue_output_drained. simpl.
  destruct e as [|e].
  - destruct Hinv as [_ [c [-> Hd]]]. now rewrite Hd.
  - destruct Hinv as [-> [c [bad [u [-> [Hd [Hc [Hbad Hshape]]]]]]]].
    rewrite (readlines_app c (bad ++ u) Hc), (drained_app _ _ _ Hd).
    destruct (readlines_cons bad u) as [rest ->].
    { destruct Hshape as [Ht | [H1 [H2 [H3 _]]]]; [now left | now right]. }
    simpl. rewrite Hbad. simpl. now rewrite app_nil_r.
Qed.

(** X7.  While the reader thread runs, the Lines it has put are those of
    the part of the output it has read. *)
Theorem reader_thread_so_far t s :
  steps initial t s ->
  reader s = Running ->
  exists c,
    emitted t = c ++ unread (stdout s)
    /\ enqueue_output c [] = (puts t, Returned).
Proof.
  intros Hsteps Hr.
  pose proof (steps_reader_at _ _ _ _ _ Hsteps initial_reader_at) as [_ Hinv].
  simpl in Hinv. rewrite Hr in Hinv. destruct Hinv as [c [HE [Hd _]]].
  exists c. split; [exact HE|]. rewrite enqueue_output_drained. now rewrite Hd.
Qed.

(** * Instances at concrete inputs *)

(** The stream "\xff\nok\n": a line that is not UTF-8, then a line that is.
    The reader dies on the first and never puts the second. *)
Lemma drain_crashes_on_malformed_line :
  decode [xff; x0a] = None
  /\ line_of ["o"; "k"; x0a]%byte = Some (lit "ok")
  /\ enqueue_output [xff; x0a; "o"; "k"; x0a]%byte []
     = ([], Uncaught UnicodeDecodeError).
Proof. vm_compute. repeat split. Qed.

Ltac ascii_text :=
  repeat constructor; unfold scalar; left; reflexivity.

Lemma send_writes_line_and_flushes_witness :
  encodable (lit "aei")
  /\ Pipe.reader_open (stdin (vars launched)) = true
  /\ exists data w',
       encode (lit "aei") = Some data
       /\ decode data = Some (lit "aei")
       /\ send (lit "aei") (vars launched) = (Ok tt, w')
       /\ Pipe.delivered (stdin w') =
          Pipe.delivered (stdin (vars launched))
          ++ Pipe.buffered (stdin (vars launched)) ++ data ++ [x0a]
       /\ Pipe.buffered (stdin w') = []
       /\ Pipe.reader_open (stdin w') = true
       /\ bestmove w' = bestmove (vars launched)
       /\ console w' = console (vars launched).
Proof.
  assert (H1 : encodable (lit "aei")) by ascii_text.
  assert (H2 : Pipe.reader_open (stdin (vars launched)) = true) by reflexivity.
  split; [exact H1 | split; [exact H2|]].
  exact (send_writes_line_and_flushes (lit "aei") (vars launched) H1 H2).
Defined.

Lemma send_on_closed_pipe_raises_witness :
  Pipe.reader_open (stdin (vars (hang_up Pipe.EINVAL started))) = false
  /\ exists e w',
       send (lit "isready") (vars (hang_up Pipe.EINVAL started)) = (Raise e, w')
       /\ Pipe.delivered (stdin w')
          = Pipe.delivered (stdin (vars (hang_up Pipe.EINVAL started)))
       /\ e = OSError_EINVAL
       /\ Pipe.buffered (stdin w') = ["i"; "s"; "r"; "e"; "a"; "d"; "y"; x0a]%byte.
Proof.
  assert (H : Pipe.reader_open (stdin (vars (hang_up Pipe.EINVAL started))) = false)
    by reflexivity.
  split; [exact H|].
  destruct (send_on_closed_pipe_raises (lit "isready")
              (vars (hang_up Pipe.EINVAL started)) H)
    as (e & w' & Hs & Hd & _ & _ & _ & Hm).
  exists e, w'. split; [exact Hs|]. split; [exact Hd | exact Hm].
Defined.

Lemma sentinel_compared_after_strip_witness :
  at_phase started = INIT
  /\ strip (lit "  aeiok ") = lit "aeiok"
  /\ (at_phase (driver_step started (Line (lit "  aeiok "))) = READY_CHECK
      \/ exists e,
           at_phase (driver_step started (Line (lit "  aeiok "))) = CRASHED e).
Proof.
  assert (H1 : at_phase started = INIT) by reflexivity.
  assert (H2 : strip (lit "  aeiok ") = lit "aeiok") by reflexivity.
  split; [exact H1 | split; [exact H2|]].
  exact (proj1 (proj1 (sentinel_compared_after_strip started (lit "  aeiok ")) H1) H2).
Defined.

Lemma bestmove_is_the_whole_line_witness :
  at_phase handshaken = SEARCHING
  /\ startswith (lit "bestmove Hh2n") (lit "bestmove") = true
  /\ bestmove (vars (driver_step handshaken (Line (lit "bestmove Hh2n"))))
     = Some (lit "bestmove Hh2n").
Proof.
  assert (H1 : at_phase handshaken = SEARCHING) by reflexivity.
  assert (H2 : startswith (lit "bestmove Hh2n") (lit "bestmove") = true)
    by reflexivity.
  split; [exact H1 | split; [exact H2|]].
  exact (proj1 (bestmove_is_the_whole_line handshaken (lit "bestmove Hh2n") H1 H2)).
Defined.

Lemma search_polls_without_deadline_witness :
  at_phase handshaken = SEARCHING
  /\ Forall no_bestmove [Empty; Line (lit "info depth 4"); Empty; Empty]
  /\ at_phase (run_driver handshaken
                 [Empty; Line (lit "info depth 4"); Empty; Empty]) = SEARCHING.
Proof.
  assert (H1 : at_phase handshaken = SEARCHING) by reflexivity.
  assert (H2 : Forall no_bestmove [Empty; Line (lit "info depth 4"); Empty; Empty])
    by (repeat constructor).
  split; [exact H1 | split; [exact H2|]].
  exact (proj1 (search_polls_without_deadline handshaken _ H1 H2)).
Defined.

Lemma crlf_line_keeps_cr_witness :
  Forall2 (fun body text =>
             decode body = Some text /\ existsb is_newline body = false)
    [["o"; "k"]; ["g"; "o"]]%byte [lit "ok"; lit "go"]
  /\ at_phase handshaken = SEARCHING
  /\ enqueue_output (crlf_lines [["o"; "k"]; ["g"; "o"]]%byte) []
     = ([] ++ map (fun text => text ++ [CR]) [lit "ok"; lit "go"], Returned)
  /\ bestmove (vars (driver_step handshaken
                       (Line (lit "bestmove" ++ lit " Hh2n" ++ [CR]))))
     = Some (lit "bestmove" ++ lit " Hh2n" ++ [CR]).
Proof.
  assert (H1 : Forall2 (fun body text =>
                          decode body = Some text
                          /\ existsb is_newline body = false)
                 [["o"; "k"]; ["g"; "o"]]%byte [lit "ok"; lit "go"])
    by (repeat constructor).
  assert (H2 : at_phase handshaken = SEARCHING) by reflexivity.
  split; [exact H1 | split; [exact H2|]].
  destruct (crlf_line_keeps_cr mixed_endings [] _ _ [] handshaken (lit " Hh2n")
              H1 H2) as [_ [_ [E3 E4]]].
  split; [exact E3 | exact E4].
Defined.

Lemma drain_lines_of_valid_stream_witness :
  Forall (fun raw => decode raw <> None) (readlines mixed_endings)
  /\ exists raws lines partial,
       enqueue_output mixed_endings [] = ([] ++ lines ++ partial, Returned)
       /\ length lines = terminators mixed_endings
       /\ readlines mixed_endings =
          raws ++ match fragment mixed_endings with
                  | [] => []
                  | _ => [fragment mixed_endings]
                  end
       /\ concat (readlines mixed_endings) = mixed_endings
       /\ Forall2 (fun raw line => line_of raw = Some line) raws lines
       /\ Forall2 (fun raw line => line_of raw = Some line)
            match fragment mixed_endings with
            | [] => []
            | _ => [fragment mixed_endings]
            end partial
       /\ Forall (fun line => ~ ends_in_LF line) (lines ++ partial).
Proof.
  assert (E : readlines mixed_endings
               = [["a"; x0a]; [x0a]; ["b"; x0d; x0a]; ["c"]]%byte)
    by (vm_compute; reflexivity).
  assert (H : Forall (fun raw => decode raw <> None) (readlines mixed_endings)).
  { rewrite E. repeat constructor; intros D; vm_compute in D; discriminate. }
  split; [exact H|].
  exact (drain_lines_of_valid_stream mixed_endings [] H).
Defined.

Lemma drain_dies_at_malformed_line_witness :
  readlines ["a"; x0a; xff; x0a; "b"; x0a]%byte
  = [["a"; x0a]%byte] ++ [xff; x0a] :: [["b"; x0a]%byte]
  /\ Forall (fun raw => decode raw <> None) [["a"; x0a]%byte]
  /\ decode [xff; x0a] = None
  /\ exists lines,
       Forall2 (fun raw line => line_of raw = Some line) [["a"; x0a]%byte] lines
       /\ enqueue_output ["a"; x0a; xff; x0a; "b"; x0a]%byte []
          = ([] ++ lines, Uncaught UnicodeDecodeError).
Proof.
  assert (H1 : readlines ["a"; x0a; xff; x0a; "b"; x0a]%byte
               = [["a"; x0a]%byte] ++ [xff; x0a] :: [["b"; x0a]%byte])
    by reflexivity.
  assert (H2 : Forall (fun raw => decode raw <> None) [["a"; x0a]%byte])
    by (repeat constructor; intros D; vm_compute in D; discriminate).
  assert (H3 : decode [xff; x0a] = None) by reflexivity.
  split; [exact H1 | split; [exact H2 | split; [exact H3|]]].
  exact (drain_dies_at_malformed_line _ [] _ _ _ H1 H2 H3).
Defined.

Lemma greeted_reached :
  steps initial
    [Tau; Emit greeting; Put (lit "hi"); Put (lit "aeiok"); Get (Line (lit "hi"))]
    greeted.
Proof.
  apply (steps_cons initial Tau (mkSys true (mkOut [] false) Running [] started)).
  { exact (main_start initial eq_refl). }
  apply (steps_cons _ (Emit greeting)
           (mkSys true (mkOut greeting false) Running [] started)).
  { exact (engine_emit (mkSys true (mkOut [] false) Running [] started)
             greeting eq_refl). }
  apply (steps_cons _ (Put (lit "hi"))
           (mkSys true (mkOut ["a"; "e"; "i"; "o"; "k"; x0a]%byte false) Running
              [lit "hi"] started)).
  { refine (reader_put (mkSys true (mkOut greeting false) Running [] started)
              ["h"; "i"; x0a]%byte ["a"; "e"; "i"; "o"; "k"; x0a]%byte
              (lit "hi" ++ [LF]) eq_refl eq_refl eq_refl eq_refl _ eq_refl).
    discriminate. }
  apply (steps_cons _ (Put (lit "aeiok"))
           (mkSys true (mkOut [] false) Running [lit "hi"; lit "aeiok"] started)).
  { refine (reader_put
              (mkSys true (mkOut ["a"; "e"; "i"; "o"; "k"; x0a]%byte false) Running
                 [lit "hi"] started)
              ["a"; "e"; "i"; "o"; "k"; x0a]%byte [] (lit "aeiok" ++ [LF])
              eq_refl eq_refl eq_refl eq_refl _ eq_refl).
    discriminate. }
  apply (steps_cons _ (Get (Line (lit "hi"))) greeted); [|apply steps_nil].
  exact (main_get
           (mkSys true (mkOut [] false) Running [lit "hi"; lit "aeiok"] started)
           (lit "hi") [lit "aeiok"] eq_refl eq_refl).
Qed.

Lemma queue_is_fifo_witness :
  steps initial
    [Tau; Emit greeting; Put (lit "hi"); Put (lit "aeiok"); Get (Line (lit "hi"))]
    greeted
  /\ puts [Tau; Emit greeting; Put (lit "hi"); Put (lit "aeiok");
           Get (Line (lit "hi"))]
     = gets [Tau; Emit greeting; Put (lit "hi"); Put (lit "aeiok");
             Get (Line (lit "hi"))] ++ q greeted.
Proof.
  split; [exact greeted_reached|].
  exact (proj1 (queue_is_fifo initial _ greeted greeted_reached)).
Defined.

Lemma orphaned_run :
  steps orphaned [Emit greeting; Exit]
    (mkSys false (mkOut greeting true) (Ended (Uncaught UnicodeDecodeError)) []
       (hang_up Pipe.EPIPE started)).
Proof.
  apply (steps_cons orphaned (Emit greeting)
           (mkSys true (mkOut greeting false)
              (Ended (Uncaught UnicodeDecodeError)) [] started)).
  { exact (engine_emit orphaned greeting eq_refl). }
  eapply steps_cons; [|apply steps_nil].
  exact (engine_exit
           (mkSys true (mkOut greeting false)
              (Ended (Uncaught UnicodeDecodeError)) [] started)
           Pipe.EPIPE eq_refl).
Qed.

Lemma blocking_get_waits_for_a_line_witness :
  blocked orphaned
  /\ reader orphaned = Ended (Uncaught UnicodeDecodeError)
  /\ at_phase (hang_up Pipe.EPIPE started) = at_phase (main orphaned).
Proof.
  assert (H1 : blocked orphaned) by (split; [left|]; reflexivity).
  assert (H2 : reader orphaned = Ended (Uncaught UnicodeDecodeError))
    by reflexivity.
  split; [exact H1 | split; [exact H2|]].
  exact (proj1 (blocking_get_waits_for_a_line orphaned _ _ _ H1 H2 orphaned_run)).
Defined.

(** * Further properties *)

(** ** Line terminators through the codec *)

Section Terminators.
Local Opaque N.add N.mul N.sub N.div N.modulo N.ltb N.leb N.eqb.

Ltac newline_free :=
  cbn [existsb];
  repeat match goal with
  | E : ?b = false |- context [?b] => rewrite E
  end; cbn [orb]; try reflexivity; try assumption.

Lemma decode1_no_LF bs c rest :
  decode1 bs = Some (c, rest) ->
  existsb is_newline bs = false ->
  c <> LF /\ existsb is_newline rest = false.
Proof.
  unfold decode1, is_cont, between, payload, LF.
  destruct bs as [|b0 [|b1 [|b2 [|b3 r3]]]]; cbn [existsb];
    split_ifs; intros H; inversion H; subst; clear H; intros Hnl;
    repeat match goal with
    | E : (_ || _) = false |- _ => apply orb_false_iff in E; destruct E
    end;
    (split; [unfold is_newline in *; bool_to_prop;
             repeat match goal with
             | E : context [if ?b then _ else _] |- _ => destruct b eqn:?
             end; bool_to_prop; lia
           | newline_free]).
Qed.

Lemma encode1_no_LF c bs :
  encode1 c = Some bs -> c <> LF -> existsb is_newline bs = false.
Proof.
  unfold encode1, is_surrogate, is_newline, LF.
  split_ifs; intros H; inversion H; subst; clear H; intros Hc; bool_to_prop;
    cbn [existsb]; rewrite ?ord_chr by div_lia;
    repeat match goal with
    | |- context [N.eqb ?a ?b] =>
      let E := fresh in destruct (N.eqb a b) eqn:E;
      [apply N.eqb_eq in E; exfalso; div_lia | clear E]
    end; reflexivity.
Qed.

End Terminators.

Lemma decode_no_LF bs : forall s,
  decode bs = Some s -> existsb is_newline bs = false -> ~ In LF s.
Proof.
  induction bs as [| bs Hne H1 | bs c rest H1 IH] using decode_ind; intros s.
  - intros H _. inversion H. intros [].
  - rewrite (decode_none bs Hne H1). discriminate.
  - rewrite (decode_some bs c rest H1). intros H Hnl.
    destruct (decode1_no_LF bs c rest H1 Hnl) as [Hc Hrest].
    destruct (decode rest) as [s'|]; [|discriminate]. inversion H; subst.
    intros [E | Hin]; [congruence | exact (IH s' eq_refl Hrest Hin)].
Qed.

Section Within.
Local Opaque N.add N.mul N.sub N.div N.modulo N.ltb N.leb N.eqb.

(** A line terminator is never part of a longer sequence: a code point read
    off the front of a line lies within the line. *)
Lemma decode1_within body rest c r :
  body <> [] ->
  decode1 (body ++ x0a :: rest) = Some (c, r) ->
  exists r', decode1 body = Some (c, r') /\ r = r' ++ x0a :: rest.
Proof.
  intros Hne. unfold decode1, is_cont, between, payload.
  destruct body as [|b0 [|b1 [|b2 [|b3 r3]]]]; [congruence| | | |];
    cbn [app]; change (ord x0a) with 10%N;
    repeat match goal with
    | |- context [if ?b then _ else _] => destruct b eqn:?
    | |- context [match ?l with [] => _ | _ :: _ => _ end] => destruct l
    end; intros H; inversion H; subst; clear H;
    bool_to_prop;
    repeat match goal with
    | E : context [if ?b then _ else _] |- _ => destruct b eqn:?
    end; bool_to_prop; try lia;
    eexists; (split; [reflexivity | reflexivity]).
Qed.

End Within.

(** Decoding a text is decoding its first line and then the rest. *)
Lemma decode_line (body : bytes) : forall rest text,
  existsb is_newline body = false ->
  decode (body ++ x0a :: rest) = Some text ->
  exists t1 t2,
    decode body = Some t1 /\ decode rest = Some t2 /\ text = t1 ++ LF :: t2.
Proof.
  induction body as [| body Hne H1 | body c r H1 IH] using decode_ind;
    intros rest text Hnl.
  - cbn [app]. rewrite (decode_some (x0a :: rest) LF rest eq_refl).
    destruct (decode rest) as [t2|]; [|discriminate].
    intros H; inversion H; subst. now exists [], t2.
  - intros H. exfalso.
    destruct (decode1 (body ++ x0a :: rest)) as [[c r]|] eqn:E.
    + destruct (decode1_within body rest c r Hne E) as [r' [E' _]]. congruence.
    + rewrite decode_none in H; [discriminate | now destruct body | exact E].
  - rewrite (decode_some _ c (r ++ x0a :: rest) (decode1_app _ _ _ _ H1)).
    destruct (decode1_no_LF body c r H1 Hnl) as [_ Hr].
    destruct (decode (r ++ x0a :: rest)) as [t|] eqn:E; [|discriminate].
    intros H; inversion H; subst.
    destruct (IH rest t Hr E) as [t1 [t2 [E1 [E2 ->]]]].
    exists (c :: t1), t2. rewrite (decode_some body c r H1), E1. now split.
Qed.

Lemma rstrip_keeps chars s :
  Forall (fun c => chars c = false) s -> rstrip chars s = s.
Proof.
  induction 1 as [|c s Hc Hs IH]; [reflexivity|].
  cbn [rstrip]. rewrite IH, Hc. now destruct s.
Qed.

Lemma rstrip_LF_free s : ~ In LF s -> rstrip (one_of [LF]) s = s.
Proof.
  intros H. apply rstrip_keeps, Forall_forall. intros c Hc.
  rewrite one_of_LF. apply N.eqb_neq. intros ->. exact (H Hc).
Qed.

(** The Line of a raw line is the text of its body. *)
Lemma line_of_body body :
  existsb is_newline body = false ->
  line_of (body ++ [x0a]) = decode body /\ line_of body = decode body.
Proof.
  intros Hnl. unfold line_of. split.
  - destruct (decode body) as [t|] eqn:E.
    + rewrite (decode_app body [x0a] t E).
      change (decode [x0a]) with (Some [LF]). cbn [option_map].
      rewrite rstrip_snoc, one_of_LF. cbn. f_equal.
      apply rstrip_LF_free. exact (decode_no_LF body t E Hnl).
    + destruct (decode (body ++ [x0a])) as [t|] eqn:E'; [|reflexivity].
      destruct (decode_line body [] t Hnl E') as [t1 [_ [E1 _]]]. congruence.
  - destruct (decode body) as [t|] eqn:E; [|reflexivity]. cbn. f_equal.
    apply rstrip_LF_free. exact (decode_no_LF body t E Hnl).
Qed.

(** What [readline] returns, as a body and its terminator if it has one. *)
Lemma readline_raw s raw rest :
  readline s = (raw, rest) ->
  exists body,
    existsb is_newline body = false
    /\ line_of raw = decode body
    /\ (raw = body ++ [x0a] /\ s = body ++ x0a :: rest
        \/ raw = body /\ s = body /\ rest = []).
Proof.
  intros H. destruct (existsb is_newline s) eqn:Hs.
  - destruct (readline_terminated s raw rest H Hs) as [body [-> Hb]].
    exists body. split; [exact Hb|]. split; [apply (line_of_body body Hb)|].
    left. split; [reflexivity|].
    pose proof (readline_app s) as A. rewrite H in A. cbn in A.
    now rewrite <- app_assoc in A.
  - rewrite (readline_unterminated s Hs) in H. inversion H; subst.
    exists raw. split; [exact Hs|]. split; [apply (line_of_body raw Hs)|].
    right. now split.
Qed.

(** ** The reader's loop and the text of the stream *)

Lemma readlines_step s raw rest :
  readline s = (raw, rest) -> raw <> [] -> readlines s = raw :: readlines rest.
Proof.
  intros E Hne. rewrite readlines_eq, E. destruct raw; [congruence | reflexivity].
Qed.

Lemma readlines_end s rest : readline s = ([], rest) -> readlines s = [].
Proof. intros E. now rewrite readlines_eq, E. Qed.

Lemma drained_cons raw raws :
  drained (raw :: raws) =
  match line_of raw with
  | None => ([], Uncaught UnicodeDecodeError)
  | Some line => (line :: fst (drained raws), snd (drained raws))
  end.
Proof.
  unfold line_of. cbn [drained]. destruct (decode raw); cbn [option_map];
    [now destruct (drained raws) | reflexivity].
Qed.

Lemma drained_no_LF stream :
  Forall (fun line => ~ In LF line) (fst (drained (readlines stream))).
Proof.
  induction stream as [s rest E | s raw rest E Hne IH] using readline_ind.
  - rewrite (readlines_end s rest E). constructor.
  - rewrite (readlines_step s raw rest E Hne), drained_cons.
    destruct (readline_raw s raw rest E) as [body [Hb [Hl _]]].
    destruct (line_of raw) as [line|]; [|constructor].
    cbn [fst]. constructor; [|exact IH].
    exact (decode_no_LF body line (eq_sym Hl) Hb).
Qed.

Lemma drained_text stream : forall text,
  decode stream = Some text ->
  exists lines,
    drained (readlines stream) = (lines, Returned)
    /\ flat_map (fun line => line ++ [LF]) lines =
       text ++ match fragment stream with [] => [] | _ => [LF] end.
Proof.
  induction stream as [s rest E | s raw rest E Hne IH] using readline_ind;
    intros text Hd.
  - rewrite (readlines_end s rest E). rewrite (readline_nil s rest E) in *.
    inversion Hd. now exists [].
  - rewrite (readlines_step s raw rest E Hne), drained_cons.
    destruct (readline_raw s raw rest E) as [body [Hb [Hl [[-> ->] | [-> [-> ->]]]]]].
    + destruct (decode_line body rest text Hb Hd) as [t1 [t2 [E1 [E2 ->]]]].
      destruct (IH t2 E2) as [lines [Hl' Hf]].
      rewrite Hl, E1, Hl'. exists (t1 :: lines). split; [reflexivity|].
      cbn [flat_map]. rewrite Hf, fragment_line, <- !app_assoc. reflexivity.
    + rewrite Hl, Hd. rewrite (readlines_end [] [] eq_refl).
      exists [text]. split; [reflexivity|]. cbn [flat_map].
      rewrite app_nil_r, (fragment_none _ Hb). destruct body; [congruence | reflexivity].
Qed.

Lemma drained_valid stream :
  snd (drained (readlines stream)) = Returned -> decode stream <> None.
Proof.
  induction stream as [s rest E | s raw rest E Hne IH] using readline_ind.
  - rewrite (readline_nil s rest E). discriminate.
  - rewrite (readlines_step s raw rest E Hne). cbn [drained].
    destruct (decode raw) as [text|] eqn:Hraw; [|discriminate].
    destruct (drained (readlines rest)) as [lines e]. cbn [snd] in *.
    intros He. specialize (IH He).
    pose proof (readline_app s) as A. rewrite E in A. cbn in A. rewrite <- A.
    rewrite (decode_app raw rest text Hraw).
    destruct (decode rest); [discriminate | congruence].
Qed.

Lemma drained_stops l1 l2 p e :
  drained l1 = (p, Uncaught e) -> drained (l1 ++ l2) = (p, Uncaught e).
Proof.
  revert p. induction l1 as [|raw l1 IH]; intros p; cbn [drained app].
  - discriminate.
  - destruct (decode raw) as [text|]; [|trivial].
    destruct (drained l1) as [lines e'] eqn:E. intros H. inversion H; subst.
    now rewrite (IH lines eq_refl).
Qed.

(** X1.  Whatever bytes the stream holds, [enqueue_output] only appends to
    the queue, and no Line it appends holds a "\n" anywhere: a Line is the
    text of one line of the stream, terminator removed. *)
Theorem lines_hold_no_terminator (stream : bytes) (q0 : list str) :
  exists lines,
    fst (enqueue_output stream q0) = q0 ++ lines
    /\ Forall (fun line => ~ In LF line) lines.
Proof.
  rewrite enqueue_output_drained. cbn [fst].
  exists (fst (drained (readlines stream))). split; [reflexivity|].
  apply drained_no_LF.
Qed.

(** X2.  [enqueue_output] runs to its end, without [UnicodeDecodeError],
    exactly when the whole stream is well-formed UTF-8: cutting the stream
    at its line terminators never cuts through a code point. *)
Theorem drain_returns_iff_valid_utf8 (stream : bytes) (q0 : list str) :
  snd (enqueue_output stream q0) = Returned <-> decode stream <> None.
Proof.
  rewrite enqueue_output_drained. cbn [snd]. split.
  - apply drained_valid.
  - destruct (decode stream) as [text|] eqn:E; [intros _|congruence].
    destruct (drained_text stream text E) as [lines [H _]]. now rewrite H.
Qed.

(** X3.  On a stream that is well-formed UTF-8 the reader loses nothing
    but the terminators: the Lines it puts, each followed by "\n", make up
    the decoded text of the stream (with one "\n" more when the stream ends
    in an unterminated fragment). *)
Theorem drain_keeps_the_text (stream : bytes) (text : str) (q0 : list str) :
  decode stream = Some text ->
  exists lines,
    enqueue_output stream q0 = (q0 ++ lines, Returned)
    /\ flat_map (fun line => line ++ [LF]) lines =
       text ++ match fragment stream with [] => [] | _ => [LF] end.
Proof.
  intros E. destruct (drained_text stream text E) as [lines [H Hf]].
  exists lines. split; [|exact Hf]. now rewrite enqueue_output_drained, H.
Qed.

(** X4.  Reading a stream is reading a first part that ends where a line
    ends and then, if that went through, the rest with the queue the first
    part left; an exception in the first part is the result of the whole. *)
Theorem drain_resumes_at_line_boundary (a b : bytes) (q0 : list str) :
  complete a ->
  enqueue_output (a ++ b) q0 =
  match enqueue_output a q0 with
  | (q1, Returned) => enqueue_output b q1
  | (q1, Uncaught e) => (q1, Uncaught e)
  end.
Proof.
  intros Ha.
  rewrite (enqueue_output_drained (a ++ b)), (enqueue_output_drained a),
    (readlines_app a b Ha).
  destruct (drained (readlines a)) as [p [|e]] eqn:E; cbn [fst snd].
  - rewrite (drained_app _ (readlines b) p E), (enqueue_output_drained b).
    cbn [fst snd]. now rewrite app_assoc.
  - now rewrite (drained_stops _ (readlines b) p e E).
Qed.

(** ** What [send] writes, read back *)

Lemma encode_no_LF s : forall data,
  encode s = Some data -> ~ In LF s -> existsb is_newline data = false.
Proof.
  induction s as [|c s IH]; intros data; cbn [encode].
  - intros H _. now inversion H.
  - destruct (encode1 c) as [bs|] eqn:E1; [|discriminate].
    destruct (encode s) as [rest|]; [|discriminate].
    intros H Hin. inversion H; subst. rewrite existsb_app.
    rewrite (encode1_no_LF c bs E1) by (intros ->; apply Hin; now left).
    apply (IH rest eq_refl). intros Hs. apply Hin. now right.
Qed.

Lemma send_open cmd data w :
  encode cmd = Some data ->
  Pipe.reader_open (stdin w) = true ->
  exists p,
    send cmd w = (Ok tt, mkWorld p (bestmove w) (console w))
    /\ Pipe.reader_open p = true
    /\ Pipe.buffered p = []
    /\ Pipe.delivered p =
       Pipe.delivered (stdin w) ++ Pipe.buffered (stdin w) ++ data ++ [x0a].
Proof.
  intros Hdata Hopen.
  destruct (write_flush_open (data ++ [x0a]) (stdin w) Hopen)
    as [p' [p [Hw [Hf [H1 [H2 H3]]]]]].
  exists p. unfold send. rewrite (encode_line _ _ Hdata). cbn [or_raise].
  rewrite Hw, Hf. now repeat split.
Qed.

(** A command that fits into the empty buffer, sent when the read end is
    gone: [write] takes it, [flush] raises, and it stays in the buffer. *)
Lemma send_broken cmd data w e :
  encode cmd = Some data ->
  Pipe.status (stdin w) = Pipe.Broken e ->
  Pipe.buffered (stdin w) = [] ->
  (Pipe.size (data ++ [x0a]) <=? Pipe.DEFAULT_BUFFER_SIZE)%N = true ->
  send cmd w =
  (Raise (Pipe.os_error e),
   mkWorld (Pipe.mk (Pipe.Broken e) (data ++ [x0a]) (Pipe.delivered (stdin w)))
     (bestmove w) (console w)).
Proof.
  intros Hdata Hst Hbuf Hfit. unfold send. rewrite (encode_line _ _ Hdata).
  cbn [or_raise].
  pose proof (write_flush_broken (data ++ [x0a]) (stdin w) e Hst) as H.
  rewrite Hbuf in H. change (Pipe.size []) with 0%N in H.
  rewrite N.sub_0_r, Hfit in H. cbn [app] in H.
  destruct H as [Hw Hf]; [now destruct data|]. now rewrite Hw, Hf.
Qed.

(** Whatever the buffer holds, [send] raises the error of the platform when
    the read end is gone. *)
Lemma send_broken_raises cmd data w e :
  encode cmd = Some data ->
  Pipe.status (stdin w) = Pipe.Broken e ->
  exists w', send cmd w = (Raise (Pipe.os_error e), w').
Proof.
  intros Hdata Hst. unfold send. rewrite (encode_line _ _ Hdata).
  cbn [or_raise].
  pose proof (write_flush_broken (data ++ [x0a]) (stdin w) e Hst) as H.
  destruct (Pipe.size (data ++ [x0a])
            <=? Pipe.DEFAULT_BUFFER_SIZE - Pipe.size (Pipe.buffered (stdin w)))%N.
  - destruct H as [Hw Hf]; [now destruct data|]. rewrite Hw, Hf. now eexists.
  - rewrite H by now destruct data. now eexists.
Qed.

(** One line that [send] wrote, as the reader's loop takes it. *)
Lemma enqueue_output_sent cmd data rest q0 :
  encode cmd = Some data -> ~ In LF cmd ->
  enqueue_output (data ++ [x0a] ++ rest) q0 = enqueue_output rest (q0 ++ [cmd]).
Proof.
  intros Hdata Hcmd.
  pose proof (encode_no_LF cmd data Hdata Hcmd) as Hnl.
  rewrite enqueue_output_eq. cbn [app]. rewrite (readline_body data rest Hnl).
  destruct (line_of_body data Hnl) as [Hl _]. unfold line_of in Hl.
  rewrite (decode_encode cmd data Hdata) in Hl.
  destruct (decode (data ++ [x0a])) as [text|]; [|discriminate].
  inversion Hl as [Hl']. rewrite Hl'.
  destruct (data ++ [x0a]) eqn:E; [now destruct data | reflexivity].
Qed.

(** X5.  The framing of [send] and the framing the reader undoes agree:
    commands without "\n" in them that are sent one after the other to an
    engine that is there arrive as bytes from which [enqueue_output] makes
    exactly these commands, one Line each, and returns. *)
Theorem sent_lines_read_back (cmds : list str) (w : world) :
  Forall encodable cmds ->
  Forall (fun cmd => ~ In LF cmd) cmds ->
  Pipe.reader_open (stdin w) = true ->
  Pipe.buffered (stdin w) = [] ->
  exists w' wire,
    send_each cmds w = (Ok tt, w')
    /\ Pipe.delivered (stdin w') = Pipe.delivered (stdin w) ++ wire
    /\ Pipe.buffered (stdin w') = []
    /\ forall q0, enqueue_output wire q0 = (q0 ++ cmds, Returned).
Proof.
  intros Henc. revert w.
  induction Henc as [|cmd cmds Hcmd _ IH]; intros w Hlf Hopen Hbuf.
  - exists w, []. cbn [send_each]. unfold ret.
    rewrite !app_nil_r. repeat split; [exact Hbuf|].
    intros q0. rewrite enqueue_output_eq. cbn. now rewrite app_nil_r.
  - inversion Hlf as [|? ? Hlf1 Hlf2]; subst.
    destruct (encode_encodable cmd Hcmd) as [data Hdata].
    destruct (send_open cmd data w Hdata Hopen) as [p [Hs [Ho [Hb Hd]]]].
    destruct (IH (mkWorld p (bestmove w) (console w)) Hlf2 Ho Hb)
      as [w' [wire [Hs' [Hd' [Hb' Hq]]]]].
    exists w', (data ++ [x0a] ++ wire). cbn [send_each]. unfold bind.
    rewrite Hs, Hs'. split; [reflexivity|]. split; [|split; [exact Hb'|]].
    + rewrite Hd'. cbn [stdin]. rewrite Hd, Hbuf. cbn [app].
      now rewrite <- !app_assoc.
    + intros q0. rewrite (enqueue_output_sent cmd data wire q0 Hdata Hlf1), Hq.
      now rewrite <- app_assoc.
Qed.

Lemma sent_lines_read_back_witness :
  exists w' wire,
    send_each [lit "newgame"; lit "go"] (vars launched) = (Ok tt, w')
    /\ Pipe.delivered (stdin w') = Pipe.delivered (stdin (vars launched)) ++ wire
    /\ Pipe.buffered (stdin w') = []
    /\ forall q0,
         enqueue_output wire q0 = (q0 ++ [lit "newgame"; lit "go"], Returned).
Proof.
  apply (sent_lines_read_back [lit "newgame"; lit "go"] (vars launched)).
  - repeat constructor; unfold scalar; left; reflexivity.
  - repeat constructor; intros H; vm_compute in H; intuition discriminate.
  - reflexivity.
  - reflexivity.
Defined.

(** ** The main flow in every run *)

(** The commands of the script encode, to lines that fit into the buffer
    of [engine.stdin]. *)
Lemma script_encodable cmd :
  In cmd script ->
  exists data,
    encode cmd = Some data
    /\ (Pipe.size (data ++ [x0a]) <=? Pipe.DEFAULT_BUFFER_SIZE)%N = true.
Proof.
  intros H. unfold script in H.
  repeat (destruct H as [<- | H];
          [eexists; split; [vm_compute; reflexivity | vm_compute; reflexivity]|]).
  destruct H.
Qed.

Lemma firstn_snoc {A} (l : list A) : forall n x,
  nth_error l n = Some x -> firstn (S n) l = firstn n l ++ [x].
Proof.
  induction l as [|a l IH]; intros [|n] x; cbn [nth_error]; try discriminate.
  - intros H. inversion H. now destruct l.
  - intros H. cbn [firstn app]. f_equal. now apply IH.
Qed.

Lemma wire_text_snoc cmds cmd :
  wire_text (cmds ++ [cmd]) = wire_text cmds ++ cmd ++ [LF].
Proof.
  unfold wire_text. rewrite flat_map_app. cbn [flat_map]. now rewrite app_nil_r.
Qed.

Lemma echoed_snoc lines line :
  echoed (lines ++ [line]) =
  echoed lines ++ lit "ENGINE:" ++ lit " " ++ line ++ [LF].
Proof.
  unfold echoed. rewrite flat_map_app. cbn [flat_map]. now rewrite app_nil_r.
Qed.

(** Sending the next command of the script to an engine that is there. *)
Lemma send_script n cmd w :
  nth_error script n = Some cmd ->
  encode (wire_text (firstn n script)) = Some (Pipe.delivered (stdin w)) ->
  Pipe.buffered (stdin w) = [] ->
  Pipe.status (stdin w) = Pipe.Writable ->
  exists p,
    send cmd w = (Ok tt, mkWorld p (bestmove w) (console w))
    /\ Pipe.status p = Pipe.Writable
    /\ Pipe.buffered p = []
    /\ encode (wire_text (firstn (S n) script)) = Some (Pipe.delivered p).
Proof.
  intros Hn Hwire Hbuf Hst.
  destruct (script_encodable cmd (nth_error_In _ _ Hn)) as [data [Hdata _]].
  destruct (send_open cmd data w Hdata (proj2 (reader_open_writable _) Hst))
    as [p [Hs [Ho [Hb Hd]]]].
  exists p. split; [exact Hs|]. split; [now apply reader_open_writable|].
  split; [exact Hb|].
  rewrite (firstn_snoc script n cmd Hn), wire_text_snoc, encode_app, Hwire.
  rewrite (encode_line cmd data Hdata), Hd, Hbuf. reflexivity.
Qed.

(** Sending the next command of the script when the read end is gone: the
    command stays in the buffer. *)
Lemma send_script_broken n cmd w e :
  nth_error script n = Some cmd ->
  Pipe.status (stdin w) = Pipe.Broken e ->
  Pipe.buffered (stdin w) = [] ->
  exists p,
    send cmd w = (Raise (Pipe.os_error e), mkWorld p (bestmove w) (console w))
    /\ Pipe.status p = Pipe.Broken e
    /\ Pipe.delivered p = Pipe.delivered (stdin w)
    /\ encode (cmd ++ [LF]) = Some (Pipe.buffered p).
Proof.
  intros Hn Hst Hbuf.
  destruct (script_encodable cmd (nth_error_In _ _ Hn)) as [data [Hdata Hfit]].
  eexists. split; [exact (send_broken cmd data w e Hdata Hst Hbuf Hfit)|].
  cbn [Pipe.status Pipe.delivered Pipe.buffered].
  now rewrite (encode_line cmd data Hdata).
Qed.

Lemma hang_up_keeps e p :
  Pipe.buffered (Pipe.hang_up e p) = Pipe.buffered p
  /\ Pipe.delivered (Pipe.hang_up e p) = Pipe.delivered p
  /\ Pipe.reader_open (Pipe.hang_up e p) = false
  /\ (Pipe.status p <> Pipe.Closed -> Pipe.status (Pipe.hang_up e p) <> Pipe.Closed)
  /\ (forall x, Pipe.status p = Pipe.Broken x ->
               Pipe.status (Pipe.hang_up e p) = Pipe.Broken x).
Proof.
  unfold Pipe.hang_up, Pipe.reader_open.
  destruct (Pipe.status p) eqn:E; cbn [Pipe.status Pipe.buffered Pipe.delivered];
    rewrite ?E; repeat split; congruence.
Qed.

(** The invariant looks at the main flow and at whether the engine lives. *)
Lemma main_at_same taken n s s' :
  main s' = main s -> engine_alive s' = engine_alive s ->
  main_at taken n s -> main_at taken n s'.
Proof. unfold main_at. intros -> ->. trivial. Qed.

(** The engine lets go of the read end, exiting or not. *)
Lemma main_at_hang_up taken n s e s' :
  main s' = hang_up e (main s) ->
  engine_alive s = true ->
  main_at taken n s -> main_at taken n s'.
Proof.
  unfold main_at. intros -> Ha (Hcl & Hdead & He & Hc & Hbuf & Hp).
  cbn [hang_up vars at_phase stdin bestmove console].
  destruct (hang_up_keeps e (stdin (vars (main s)))) as (Kb & Kd & Ko & Kc & Kx).
  rewrite Kb, Kd.
  split; [exact (Kc Hcl)|]. split; [intros _; exact Ko|].
  split; [exact He|]. split; [exact Hc|]. split.
  - destruct (at_phase (main s)); try exact Hbuf.
    destruct Hbuf as (errno & cmd & H1 & H2 & H3 & H4).
    exists errno, cmd. repeat split; try assumption. exact (Kx errno H2).
  - destruct (at_phase (main s)); try exact Hp.
    destruct Hp as (_ & _ & Hdead'). congruence.
Qed.

Ltac settle :=
  repeat match goal with |- _ /\ _ => split end;
  first [assumption | congruence | reflexivity | lia
        | left; first [assumption | reflexivity | congruence]
        | right; assumption].

(** The world after a turn of the main flow that has sent commands: the
    invariant again, at the phase and the count the turn has reached. *)
Ltac arrive n :=
  exists n; unfold ret;
  cbn [advance vars at_phase stdin bestmove console main engine_alive];
  rewrite ?echoed_snoc;
  repeat match goal with
  | H : console _ = _ |- _ => rewrite H
  | H : bestmove _ = None |- _ => rewrite H
  end;
  cbn [final_report]; rewrite ?app_nil_r;
  repeat match goal with
  | |- _ /\ _ => split
  | |- _ = false -> _ => intros ?
  | |- exists _ : Pipe.errno, _ => eexists
  | |- exists _ : str, _ => eexists
  end;
  try solve [assumption | congruence | reflexivity | lia | auto
            | left; first [assumption | reflexivity | congruence]
            | right; assumption
            | match goal with
              | H : ?a = false -> Pipe.reader_open ?p = false,
                H1 : ?a = false, H2 : Pipe.status ?p = Pipe.Writable |- _ =>
                apply H in H1; unfold Pipe.reader_open in H1;
                rewrite H2 in H1; discriminate
              end
            | unfold Pipe.reader_open;
              match goal with H : Pipe.status _ = _ |- _ => now rewrite H end].

Ltac send_next n :=
  match goal with
  | |- context [send ?cmd ?w] =>
    let p := fresh "p" in
    let Hs := fresh "Hs" in
    let Ho := fresh "Ho" in
    let Hb := fresh "Hb" in
    let He := fresh "He" in
    destruct (send_script n cmd w eq_refl) as (p & Hs & Ho & Hb & He);
    [cbn [stdin]; assumption | cbn [stdin]; assumption
     | cbn [stdin]; assumption |];
    cbn [stdin bestmove console] in Hs; rewrite Hs; clear Hs
  end.

Ltac send_fails n e :=
  match goal with
  | |- context [send ?cmd ?w] =>
    let p := fresh "p" in
    let Hs := fresh "Hs" in
    let Ho := fresh "Ho" in
    let Hd := fresh "Hd" in
    let Hu := fresh "Hu" in
    destruct (send_script_broken n cmd w e eq_refl) as (p & Hs & Ho & Hd & Hu);
    [cbn [stdin]; assumption | cbn [stdin]; assumption |];
    cbn [stdin bestmove console] in Hs, Hd; rewrite Hs; clear Hs
  end.

Lemma step_main_at taken n s l s' :
  step s l s' ->
  main_at taken n s ->
  exists n', main_at (taken ++ gets [l]) n' s'.
Proof.
  intros Hstep Hinv. destruct Hstep as
    [s data Ha | s e Ha | s e Ha | s raw rest text Hr Hov Hre Hl Hne Hd
     | s raw rest Hr Hov Hre Hl Hne Hd | s rest Hr Hov Hre Hl
     | s Hph | s line q' Hw Hq | s Hph Hq | s Hph Ha];
    cbn [gets]; rewrite ?app_nil_r.
  - exists n. now apply (main_at_same taken n s).
  - exists n. now apply (main_at_hang_up taken n s e).
  - exists n. now apply (main_at_hang_up taken n s e).
  - exists n. now apply (main_at_same taken n s).
  - exists n. now apply (main_at_same taken n s).
  - exists n. now apply (main_at_same taken n s).
  - (* the first [send] *)
    unfold main_at in Hinv. destruct (main s) as [ph w] eqn:Hmain.
    cbn [main vars at_phase engine_alive] in *. subst ph.
    destruct Hinv as (Hcl & Hdead & He & Hc & Hbuf & -> & -> & Hbm).
    unfold main_at, start, bind. rewrite ?Hmain.
    destruct (Pipe.status (stdin w)) as [|errno|] eqn:Hst; [| |congruence].
    + send_next 0. arrive 1.
    + send_fails 0 errno. arrive 0.
  - (* a line taken *)
    unfold main_at in Hinv. destruct (main s) as [ph w] eqn:Hmain.
    cbn [main vars at_phase engine_alive driver_step] in *.
    destruct Hinv as (Hcl & Hdead & He & Hc & Hbuf & Hp).
    unfold main_at.
    destruct ph; try discriminate; destruct Hp as [-> Hbm].
    + (* INIT *)
      unfold on_line. rewrite bind_print.
      destruct (str_eqb (strip line) (lit "aeiok")).
      * unfold bind.
        destruct (Pipe.status (stdin w)) as [|errno|] eqn:Hst; [| |congruence].
        -- send_next 1. arrive 2.
        -- send_fails 1 errno. arrive 1.
      * arrive 1.
    + (* READY_CHECK *)
      unfold on_line. rewrite bind_print.
      destruct (str_eqb (strip line) (lit "readyok")).
      * unfold bind.
        destruct (Pipe.status (stdin w)) as [|errno|] eqn:Hst; [| |congruence].
        -- send_next 2. send_next 3. send_next 4. send_next 5. arrive 6.
        -- send_fails 2 errno. arrive 2.
      * arrive 2.
    + (* SEARCHING *)
      unfold on_line. rewrite bind_print.
      destruct (startswith line (lit "bestmove")) eqn:Hfound.
      * assert (Hf : found (taken ++ [line]) (Some line))
          by (exists line, taken; now repeat split).
        unfold bind, assign_bestmove, print. cbn [stdin bestmove console].
        destruct (Pipe.status (stdin w)) as [|errno|] eqn:Hst; [| |congruence].
        -- send_next 6. arrive 7.
        -- send_fails 6 errno. arrive 6.
      * arrive 6.
  - exists n. now apply (main_at_same taken n s).
  - (* [engine.wait()] returns *)
    exists n. unfold main_at in *.
    cbn [main vars at_phase engine_alive] in *.
    destruct Hinv as (Hcl & Hdead & He & Hc & Hbuf & Hp). rewrite Hph in Hbuf, Hp.
    destruct Hp as [-> Hf].
    repeat match goal with |- _ /\ _ => split end; auto.
Qed.

Lemma steps_main_at s t s' : forall taken n,
  steps s t s' ->
  main_at taken n s ->
  exists n', main_at (taken ++ gets t) n' s'.
Proof.
  intros taken n Hsteps. revert taken n.
  induction Hsteps as [s | s l s1 t s2 Hstep _ IH]; intros taken n Hinv.
  - exists n. cbn [gets]. now rewrite app_nil_r.
  - destruct (step_main_at taken n s l s1 Hstep Hinv) as [n1 H1].
    destruct (IH _ n1 H1) as [n2 H2]. exists n2.
    change (l :: t) with ([l] ++ t). now rewrite gets_app, app_assoc.
Qed.

Lemma initial_main_at : main_at [] 0 initial.
Proof. unfold main_at. cbn. repeat split; discriminate. Qed.

Lemma run_main_at t s :
  steps initial t s -> exists n, main_at (gets t) n s.
Proof.
  intros H. exact (steps_main_at initial t s [] 0 H initial_main_at).
Qed.

Lemma steps_fifo s0 t s : steps s0 t s -> q s0 ++ puts t = gets t ++ q s.
Proof.
  induction 1 as [s | s l s1 t s2 Hstep _ IH].
  - cbn. now rewrite app_nil_r.
  - change (l :: t) with ([l] ++ t). rewrite puts_app, gets_app.
    rewrite app_assoc, (step_queue _ _ _ Hstep), <- !app_assoc.
    now rewrite IH.
Qed.

(** ** Two runs: a whole session, and an engine that is gone at once *)

Lemma session_run : steps initial session finished.
Proof.
  pose (s1 := mkSys true (mkOut [] false) Running [] started).
  pose (s2 := mkSys true (mkOut answers false) Running [] started).
  pose (s3 := mkSys true (mkOut (skipn 6 answers) false) Running
                [lit "aeiok"] started).
  pose (s4 := mkSys true (mkOut (skipn 14 answers) false) Running
                [lit "aeiok"; lit "readyok"] started).
  pose (s5 := mkSys true (mkOut [] false) Running
                [lit "aeiok"; lit "readyok"; lit "bestmove Hh2n"] started).
  pose (s6 := mkSys true (mkOut [] false) Running
                [lit "readyok"; lit "bestmove Hh2n"]
                (driver_step started (Line (lit "aeiok")))).
  pose (s7 := mkSys true (mkOut [] false) Running [lit "bestmove Hh2n"]
                handshaken).
  pose (s8 := mkSys true (mkOut [] false) Running [] moved).
  pose (s9 := mkSys false (mkOut [] true) Running [] (hang_up Pipe.EPIPE moved)).
  pose (s10 := mkSys false (mkOut [] true) (Ended Returned) [] (hang_up Pipe.EPIPE moved)).
  apply (steps_cons initial Tau s1). { exact (main_start initial eq_refl). }
  apply (steps_cons s1 (Emit answers) s2). { exact (engine_emit s1 answers eq_refl). }
  apply (steps_cons s2 (Put (lit "aeiok")) s3).
  { refine (reader_put s2 (firstn 6 answers) (skipn 6 answers)
              (lit "aeiok" ++ [LF]) eq_refl eq_refl eq_refl eq_refl _ eq_refl).
    discriminate. }
  apply (steps_cons s3 (Put (lit "readyok")) s4).
  { refine (reader_put s3 (firstn 8 (skipn 6 answers)) (skipn 14 answers)
              (lit "readyok" ++ [LF]) eq_refl eq_refl eq_refl eq_refl _ eq_refl).
    discriminate. }
  apply (steps_cons s4 (Put (lit "bestmove Hh2n")) s5).
  { refine (reader_put s4 (skipn 14 answers) []
              (lit "bestmove Hh2n" ++ [LF]) eq_refl eq_refl eq_refl eq_refl _ eq_refl).
    discriminate. }
  apply (steps_cons s5 (Get (Line (lit "aeiok"))) s6).
  { exact (main_get s5 (lit "aeiok") [lit "readyok"; lit "bestmove Hh2n"]
             eq_refl eq_refl). }
  apply (steps_cons s6 (Get (Line (lit "readyok"))) s7).
  { exact (main_get s6 (lit "readyok") [lit "bestmove Hh2n"] eq_refl eq_refl). }
  apply (steps_cons s7 (Get (Line (lit "bestmove Hh2n"))) s8).
  { exact (main_get s7 (lit "bestmove Hh2n") [] eq_refl eq_refl). }
  apply (steps_cons s8 Exit s9). { exact (engine_exit s8 Pipe.EPIPE eq_refl). }
  apply (steps_cons s9 Tau s10).
  { exact (reader_close s9 [] eq_refl eq_refl eq_refl eq_refl). }
  apply (steps_cons s10 Tau finished); [|apply steps_nil].
  exact (main_wait s10 eq_refl eq_refl).
Qed.

Lemma stillborn_run : steps initial [Exit; Tau] stillborn.
Proof.
  apply (steps_cons initial Exit
           (mkSys false (mkOut [] true) Running []
              (hang_up Pipe.EINVAL launched))).
  { exact (engine_exit initial Pipe.EINVAL eq_refl). }
  apply (steps_cons _ Tau stillborn); [|apply steps_nil].
  exact (main_start
           (mkSys false (mkOut [] true) Running [] (hang_up Pipe.EINVAL launched))
           eq_refl).
Qed.

(** ** What holds of the main flow in every run *)

(** X9.  In every run from the launch, what the engine has been handed on
    its input is the encoding of the first [n] commands of the script, in
    the script's order, each followed by one "\n"; [n] is fixed by where the
    main flow stands: none before the start, "aei" while waiting for "aeiok",
    "isready" too while waiting for "readyok", the four set-up commands too
    while polling, all seven once "quit" has gone out, and never "quit" when
    the flow has stopped on an exception.  As long as the flow has not
    stopped on an exception nothing is left in the buffer; when it has, the
    buffer holds the next command of the script, the one that could not be
    sent, and nothing else. *)
Theorem engine_receives_script_prefix (t : list label) (s : system) :
  steps initial t s ->
  exists n,
    encode (wire_text (firstn n script))
    = Some (Pipe.delivered (stdin (vars (main s))))
    /\ match at_phase (main s) with
       | START => n = 0
       | INIT => n = 1
       | READY_CHECK => n = 2
       | SEARCHING => n = 6
       | DONE | EXITED => n = 7
       | CRASHED _ => n <= 6
       end
    /\ match at_phase (main s) with
       | CRASHED _ =>
         exists cmd,
           nth_error script n = Some cmd
           /\ encode (cmd ++ [LF])
              = Some (Pipe.buffered (stdin (vars (main s))))
       | _ => Pipe.buffered (stdin (vars (main s))) = []
       end.
Proof.
  intros H. destruct (run_main_at t s H) as [n (_ & _ & He & _ & Hbuf & Hp)].
  exists n. split; [exact He|].
  destruct (at_phase (main s)); try (split; [tauto | exact Hbuf]).
  destruct Hbuf as (errno & cmd & _ & _ & Hn & Hu). split.
  - assert (Hlt : n < length script) by (apply nth_error_Some; congruence).
    cbn in Hlt. lia.
  - now exists cmd.
Qed.

(** X10.  In every run from the launch, the script has not closed
    [engine.stdin], and once the engine has exited the stream cannot be
    written.  So in every state that a run reaches, a [send] of a command of
    the script goes through when the stream is open with its reader there,
    and otherwise raises the error of the platform for a write on a pipe
    without a reader ([BrokenPipeError], or the [OSError] of Windows): a
    [send] of the script never raises [ValueError] or
    [UnicodeEncodeError]. *)
Theorem script_sends_fail_only_on_a_lost_reader
  (t : list label) (s : system) (cmd : str) :
  steps initial t s ->
  In cmd script ->
  (engine_alive s = false -> Pipe.reader_open (stdin (vars (main s))) = false)
  /\ match Pipe.status (stdin (vars (main s))) with
     | Pipe.Writable => exists w', send cmd (vars (main s)) = (Ok tt, w')
     | Pipe.Broken errno =>
       exists w', send cmd (vars (main s)) = (Raise (Pipe.os_error errno), w')
     | Pipe.Closed => False
     end.
Proof.
  intros H Hcmd. destruct (run_main_at t s H) as [n (Hcl & Hdead & _)].
  split; [exact Hdead|].
  destruct (script_encodable cmd Hcmd) as [data [Hdata _]].
  destruct (Pipe.status (stdin (vars (main s)))) as [|errno|] eqn:Hst.
  - destruct (send_open cmd data (vars (main s)) Hdata
                (proj2 (reader_open_writable _) Hst)) as [p [Hs _]].
    eexists. exact Hs.
  - exact (send_broken_raises cmd data (vars (main s)) errno Hdata Hst).
  - congruence.
Qed.

(** X11.  In every run from the launch, what the script has printed is
    one "ENGINE: <line>" for each line taken off the queue, in the order
    taken, followed by the "Final engine move" report once [bestmove] is
    set, and nothing else. *)
Theorem console_echoes_the_lines_taken (t : list label) (s : system) :
  steps initial t s ->
  console (vars (main s))
  = echoed (gets t) ++ final_report (bestmove (vars (main s))).
Proof.
  intros H. destruct (run_main_at t s H) as [n (_ & _ & _ & Hc & _)].
  exact Hc.
Qed.

(** X12.  In every run from the launch, [bestmove] is unset until the
    polling loop has ended and set once the flow waits for the engine to exit
    or is done; when it is set, it is a line that begins with "bestmove", the
    last line taken off the queue, and a Line that the reader thread has
    put. *)
Theorem result_is_the_last_line_taken (t : list label) (s : system) :
  steps initial t s ->
  (at_phase (main s) = START \/ waiting (at_phase (main s)) = true ->
   bestmove (vars (main s)) = None)
  /\ (at_phase (main s) = DONE \/ at_phase (main s) = EXITED ->
      bestmove (vars (main s)) <> None)
  /\ forall move,
       bestmove (vars (main s)) = Some move ->
       startswith move (lit "bestmove") = true
       /\ (exists before, gets t = before ++ [move])
       /\ In move (puts t).
Proof.
  intros H. destruct (run_main_at t s H) as [n (_ & _ & _ & _ & _ & Hp)].
  pose proof (steps_fifo initial t s H) as Hq. cbn [q initial app] in Hq.
  assert (Hfound : found (gets t) (bestmove (vars (main s))) ->
            forall move, bestmove (vars (main s)) = Some move ->
              startswith move (lit "bestmove") = true
              /\ (exists before, gets t = before ++ [move])
              /\ In move (puts t)).
  { intros (m & before & Hm & Ht & Hs) move Hmove.
    rewrite Hm in Hmove. inversion Hmove; subst m.
    split; [exact Hs|]. split; [now exists before|].
    rewrite Hq, Ht. apply in_or_app. left. apply in_or_app. right. now left. }
  destruct (at_phase (main s)); cbn [waiting] in *.
  all: split; [intros [?|?]; first [discriminate | tauto]|].
  all: split; [intros [?|?]; try discriminate;
               destruct Hp as (? & (m & ? & Hm & _) & _) || destruct Hp as (? & (m & ? & Hm & _));
               rewrite Hm; discriminate|].
  all: try (intros move Hmove; exfalso;
            repeat match goal with H : _ /\ _ |- _ => destruct H end;
            congruence).
  - apply Hfound, Hp.
  - apply Hfound, Hp.
  - destruct Hp as [Hn | Hf].
    + intros move Hmove. congruence.
    + exact (Hfound Hf).
Qed.

(** ** The reader after the engine has exited *)

Lemma reader_runs (u : bytes) : forall s,
  unread (stdout s) = u ->
  reader s = Running ->
  at_eof (stdout s) = true ->
  over (at_phase (main s)) = false ->
  exists t s',
    steps s t s'
    /\ reader s' = Ended (snd (enqueue_output u (q s)))
    /\ q s' = fst (enqueue_output u (q s))
    /\ gets t = []
    /\ main s' = main s.
Proof.
  induction u as [u rest E | u raw rest E Hne IH] using readline_ind;
    intros s Hu Hr Heof Hov.
  - pose (s1 := mkSys (engine_alive s) (stdout s) (Ended Returned) (q s) (main s)).
    exists [Tau], s1. rewrite enqueue_output_eq, E. repeat split.
    apply (steps_cons s Tau s1 [] s1); [|apply steps_nil].
    apply (reader_close s rest Hr Hov).
    + unfold readable. rewrite Heof. apply orb_true_r.
    + now rewrite Hu.
  - assert (Hre : readable (stdout s) = true)
      by (unfold readable; rewrite Heof; apply orb_true_r).
    rewrite <- Hu in E. rewrite enqueue_output_eq, <- Hu, E.
    destruct raw as [|b raw]; [congruence|].
    destruct (decode (b :: raw)) as [text|] eqn:Hd.
    + pose (s1 := mkSys (engine_alive s) (mkOut rest (at_eof (stdout s))) Running
                    (q s ++ [rstrip (one_of [LF]) text]) (main s)).
      destruct (IH s1 eq_refl eq_refl Heof Hov) as (t & s' & Ht & H1 & H2 & H3 & H4).
      exists (Put (rstrip (one_of [LF]) text) :: t), s'.
      repeat split; try assumption.
      apply (steps_cons s _ s1 t s'); [|exact Ht].
      exact (reader_put s (b :: raw) rest text Hr Hov Hre E Hne Hd).
    + pose (s1 := mkSys (engine_alive s) (mkOut rest (at_eof (stdout s)))
                    (Ended (Uncaught UnicodeDecodeError)) (q s) (main s)).
      exists [Tau], s1. repeat split.
      apply (steps_cons s Tau s1 [] s1); [|apply steps_nil].
      exact (reader_raise s (b :: raw) rest Hr Hov Hre E Hne Hd).
Qed.

(** X8.  Once the engine has exited, a reader thread that is still running
    can always finish on its own: it has a run, in which the main flow takes
    no part, that leaves the queue and ends the thread exactly as
    [enqueue_output] does on the output that was still unread. *)
Theorem reader_finishes_after_exit (s : system) :
  reader s = Running ->
  at_eof (stdout s) = true ->
  over (at_phase (main s)) = false ->
  exists t s',
    steps s t s'
    /\ (q s', reader s')
       = (fst (enqueue_output (unread (stdout s)) (q s)),
          Ended (snd (enqueue_output (unread (stdout s)) (q s))))
    /\ gets t = []
    /\ main s' = main s.
Proof.
  intros Hr Heof Hov.
  destruct (reader_runs (unread (stdout s)) s eq_refl Hr Heof Hov)
    as (t & s' & Ht & H1 & H2 & H3 & H4).
  exists t, s'. rewrite H1, H2. now repeat split.
Qed.

(** ** A sentinel from an engine that has gone *)

(** X13.  When the read end of the engine's input is gone (and the buffer
    is empty, as it is while the script runs), the line that ends a waiting
    loop stops the script: the [send] that follows the loop raises the error
    of the platform for a write on a pipe without a reader, after the line
    has been printed; nothing more is delivered, and the command that could
    not be sent stays in the buffer of [engine.stdin].  In the polling loop
    the result is stored and reported before "quit" fails. *)
Theorem lost_engine_stops_the_script
  (d : driver) (line : str) (errno : Pipe.errno) :
  Pipe.status (stdin (vars d)) = Pipe.Broken errno ->
  Pipe.buffered (stdin (vars d)) = [] ->
  (forall cmd,
     at_phase d = INIT /\ strip line = lit "aeiok" /\ cmd = lit "isready"
     \/ at_phase d = READY_CHECK /\ strip line = lit "readyok"
        /\ cmd = lit "newgame" ->
     exists data,
       encode cmd = Some data
       /\ driver_step d (Line line) =
          mkDriver (CRASHED (Pipe.os_error errno))
            (mkWorld
               (Pipe.mk (Pipe.Broken errno) (data ++ [x0a])
                  (Pipe.delivered (stdin (vars d))))
               (bestmove (vars d))
               (console (vars d) ++ lit "ENGINE:" ++ lit " " ++ line ++ [LF])))
  /\ (at_phase d = SEARCHING /\ startswith line (lit "bestmove") = true ->
      exists data,
        encode (lit "quit") = Some data
        /\ driver_step d (Line line) =
           mkDriver (CRASHED (Pipe.os_error errno))
             (mkWorld
                (Pipe.mk (Pipe.Broken errno) (data ++ [x0a])
                   (Pipe.delivered (stdin (vars d))))
                (Some line)
                ((console (vars d) ++ lit "ENGINE:" ++ lit " " ++ line ++ [LF])
                 ++ ([LF] ++ lit "Final engine move:") ++ lit " " ++ line
                 ++ [LF]))).
Proof.
  intros Hst Hbuf. destruct d as [ph w]. cbn [vars at_phase driver_step] in *.
  split.
  - intros cmd [(-> & Hs & ->) | (-> & Hs & ->)]; apply str_eqb_eq in Hs.
    + destruct (script_encodable (lit "isready")) as [data [Hdata Hfit]];
        [cbn; tauto|].
      exists data. split; [exact Hdata|].
      unfold on_line. rewrite bind_print, Hs. unfold bind.
      match goal with
      | |- context [send ?c ?w0] =>
        rewrite (send_broken c data w0 errno Hdata Hst Hbuf Hfit)
      end. reflexivity.
    + destruct (script_encodable (lit "newgame")) as [data [Hdata Hfit]];
        [cbn; tauto|].
      exists data. split; [exact Hdata|].
      unfold on_line. rewrite bind_print, Hs. unfold bind.
      match goal with
      | |- context [send ?c ?w0] =>
        rewrite (send_broken c data w0 errno Hdata Hst Hbuf Hfit)
      end. reflexivity.
  - intros [-> Hs].
    destruct (script_encodable (lit "quit")) as [data [Hdata Hfit]];
      [cbn; tauto|].
    exists data. split; [exact Hdata|].
    unfold on_line. rewrite bind_print, Hs.
    unfold bind, assign_bestmove, print. cbn [stdin bestmove console].
    match goal with
      | |- context [send ?c ?w0] =>
        rewrite (send_broken c data w0 errno Hdata Hst Hbuf Hfit)
      end. reflexivity.
Qed.

(** ** Which lines end the waiting loops *)

Lemma lstrip_pre chars pre s :
  forallb chars pre = true -> lstrip chars (pre ++ s) = lstrip chars s.
Proof.
  induction pre as [|c pre IH]; cbn [forallb app lstrip]; [reflexivity|].
  intros H. apply andb_true_iff in H. destruct H as [-> H]. exact (IH H).
Qed.

Lemma rstrip_post chars s post :
  forallb chars post = true -> rstrip chars (s ++ post) = rstrip chars s.
Proof.
  intros H. induction s as [|c s IH]; cbn [app rstrip].
  - now apply rstrip_nil_iff.
  - now rewrite IH.
Qed.

Lemma lstrip_split chars s :
  exists pre, s = pre ++ lstrip chars s /\ forallb chars pre = true.
Proof.
  induction s as [|c s [pre [H1 H2]]]; cbn [lstrip].
  - now exists [].
  - destruct (chars c) eqn:Hc.
    + exists (c :: pre). cbn [app forallb]. rewrite Hc, H2. split; [now f_equal|reflexivity].
    + now exists [].
Qed.

Lemma strip_padded core line :
  (forall post, lstrip isspace (core ++ post) = core ++ post) ->
  rstrip isspace core = core ->
  strip line = core <-> padded core line.
Proof.
  intros Hl Hr. unfold strip. split.
  - intros H. destruct (lstrip_split isspace line) as [pre [H1 H2]].
    destruct (rstrip_prefix isspace (lstrip isspace line)) as [post [H3 H4]].
    exists pre, post. rewrite H in H3. rewrite <- H3. now repeat split.
  - intros (pre & post & -> & Hpre & Hpost).
    now rewrite (lstrip_pre _ _ _ Hpre), Hl, (rstrip_post _ _ _ Hpost).
Qed.

(** X14.  The lines that end the first waiting loop are exactly "aeiok"
    with any whitespace before and after it, and those that end the second
    are exactly "readyok" with any whitespace around it: so a sentinel ended
    in "\r\n" by the engine is accepted, and no other line is. *)
Theorem loops_end_on_padded_sentinels (d : driver) (line : str) :
  (at_phase d = INIT ->
   (at_phase (driver_step d (Line line)) <> INIT <-> padded (lit "aeiok") line))
  /\ (at_phase d = READY_CHECK ->
      (at_phase (driver_step d (Line line)) <> READY_CHECK
       <-> padded (lit "readyok") line)).
Proof.
  destruct d as [ph w]. cbn [at_phase vars driver_step]. split; intros ->.
  - rewrite <- (strip_padded (lit "aeiok") line (fun _ => eq_refl) eq_refl).
    destruct (list_eq_dec N.eq_dec (strip line) (lit "aeiok")) as [E|E].
    + destruct (on_line_INIT_match line w E) as [H | [e H]];
        destruct (on_line INIT line w) as [r w']; cbn [fst] in H; subst r;
        cbn [advance at_phase]; split; [trivial | discriminate | trivial | discriminate].
    + rewrite (on_line_INIT_other line w E). cbn [advance at_phase]. tauto.
  - rewrite <- (strip_padded (lit "readyok") line (fun _ => eq_refl) eq_refl).
    destruct (list_eq_dec N.eq_dec (strip line) (lit "readyok")) as [E|E].
    + destruct (on_line_READY_match line w E) as [H | [e H]];
        destruct (on_line READY_CHECK line w) as [r w']; cbn [fst] in H; subst r;
        cbn [advance at_phase]; split; [trivial | discriminate | trivial | discriminate].
    + rewrite (on_line_READY_other line w E). cbn [advance at_phase]. tauto.
Qed.

(** ** The properties at concrete inputs *)

Lemma drain_keeps_the_text_witness :
  decode mixed_endings = Some [97; 10; 10; 98; 13; 10; 99]%N
  /\ exists lines,
       enqueue_output mixed_endings [] = ([] ++ lines, Returned)
       /\ flat_map (fun line => line ++ [LF]) lines =
          [97; 10; 10; 98; 13; 10; 99]%N
          ++ match fragment mixed_endings with [] => [] | _ => [LF] end.
Proof.
  assert (H : decode mixed_endings = Some [97; 10; 10; 98; 13; 10; 99]%N)
    by reflexivity.
  split; [exact H|].
  exact (drain_keeps_the_text mixed_endings _ [] H).
Defined.

Lemma drain_resumes_at_line_boundary_witness :
  complete ["h"; "i"; x0a]%byte
  /\ enqueue_output (["h"; "i"; x0a] ++ ["a"; "e"; "i"; "o"; "k"; x0a])%byte []
     = match enqueue_output ["h"; "i"; x0a]%byte [] with
       | (q1, Returned) => enqueue_output ["a"; "e"; "i"; "o"; "k"; x0a]%byte q1
       | (q1, Uncaught e) => (q1, Uncaught e)
       end.
Proof.
  assert (H : complete ["h"; "i"; x0a]%byte)
    by (right; exists ["h"; "i"]%byte; reflexivity).
  split; [exact H|].
  exact (drain_resumes_at_line_boundary _ _ [] H).
Defined.

Lemma engine_receives_script_prefix_witness :
  exists n,
    encode (wire_text (firstn n script))
    = Some (Pipe.delivered (stdin (vars (main stillborn))))
    /\ n <= 6
    /\ exists cmd,
         nth_error script n = Some cmd
         /\ encode (cmd ++ [LF])
            = Some (Pipe.buffered (stdin (vars (main stillborn)))).
Proof.
  exact (engine_receives_script_prefix [Exit; Tau] stillborn stillborn_run).
Defined.

Lemma script_sends_fail_only_on_a_lost_reader_witness :
  In (lit "quit") script
  /\ (engine_alive stillborn = false ->
      Pipe.reader_open (stdin (vars (main stillborn))) = false)
  /\ exists w',
       send (lit "quit") (vars (main stillborn)) = (Raise OSError_EINVAL, w').
Proof.
  assert (H : In (lit "quit") script) by (do 6 right; left; reflexivity).
  split; [exact H|].
  exact (script_sends_fail_only_on_a_lost_reader [Exit; Tau] stillborn
           (lit "quit") stillborn_run H).
Defined.

Lemma console_echoes_the_lines_taken_witness :
  console (vars (main finished))
  = echoed (gets session) ++ final_report (bestmove (vars (main finished))).
Proof. exact (console_echoes_the_lines_taken session finished session_run). Defined.

Lemma result_is_the_last_line_taken_witness :
  bestmove (vars (main finished)) = Some (lit "bestmove Hh2n")
  /\ startswith (lit "bestmove Hh2n") (lit "bestmove") = true
  /\ (exists before, gets session = before ++ [lit "bestmove Hh2n"])
  /\ In (lit "bestmove Hh2n") (puts session).
Proof.
  assert (H : bestmove (vars (main finished)) = Some (lit "bestmove Hh2n"))
    by reflexivity.
  split; [exact H|].
  exact (proj2 (proj2 (result_is_the_last_line_taken session finished session_run))
           (lit "bestmove Hh2n") H).
Defined.

Lemma reader_finishes_after_exit_witness :
  exists t s',
    steps bereft t s'
    /\ (q s', reader s')
       = (fst (enqueue_output (unread (stdout bereft)) (q bereft)),
          Ended (snd (enqueue_output (unread (stdout bereft)) (q bereft))))
    /\ gets t = []
    /\ main s' = main bereft.
Proof.
  exact (reader_finishes_after_exit bereft eq_refl eq_refl eq_refl).
Defined.

Lemma lost_engine_stops_the_script_witness :
  Pipe.status (stdin (vars (hang_up Pipe.EINVAL started)))
  = Pipe.Broken Pipe.EINVAL
  /\ Pipe.buffered (stdin (vars (hang_up Pipe.EINVAL started))) = []
  /\ at_phase (hang_up Pipe.EINVAL started) = INIT
  /\ strip (lit "aeiok" ++ [CR]) = lit "aeiok"
  /\ exists data,
       encode (lit "isready") = Some data
       /\ driver_step (hang_up Pipe.EINVAL started) (Line (lit "aeiok" ++ [CR])) =
          mkDriver (CRASHED (Pipe.os_error Pipe.EINVAL))
            (mkWorld
               (Pipe.mk (Pipe.Broken Pipe.EINVAL) (data ++ [x0a])
                  (Pipe.delivered (stdin (vars (hang_up Pipe.EINVAL started)))))
               (bestmove (vars (hang_up Pipe.EINVAL started)))
               (console (vars (hang_up Pipe.EINVAL started))
                ++ lit "ENGINE:" ++ lit " " ++ (lit "aeiok" ++ [CR]) ++ [LF])).
Proof.
  assert (H1 : Pipe.status (stdin (vars (hang_up Pipe.EINVAL started)))
               = Pipe.Broken Pipe.EINVAL) by reflexivity.
  assert (H2 : Pipe.buffered (stdin (vars (hang_up Pipe.EINVAL started))) = [])
    by reflexivity.
  assert (H3 : at_phase (hang_up Pipe.EINVAL started) = INIT) by reflexivity.
  assert (H4 : strip (lit "aeiok" ++ [CR]) = lit "aeiok") by reflexivity.
  split; [exact H1 | split; [exact H2 | split; [exact H3 | split; [exact H4|]]]].
  exact (proj1 (lost_engine_stops_the_script (hang_up Pipe.EINVAL started)
                  (lit "aeiok" ++ [CR]) Pipe.EINVAL H1 H2)
           (lit "isready") (or_introl (conj H3 (conj H4 eq_refl)))).
Defined.

Lemma loops_end_on_padded_sentinels_witness :
  at_phase started = INIT
  /\ (at_phase (driver_step started (Line (lit " aeiok" ++ [CR]))) <> INIT
      <-> padded (lit "aeiok") (lit " aeiok" ++ [CR])).
Proof.
  assert (H : at_phase started = INIT) by reflexivity.
  split; [exact H|].
  exact (proj1 (loops_end_on_padded_sentinels started (lit " aeiok" ++ [CR])) H).
Defined.

Lemma reader_thread_is_enqueue_output_witness :
  reader finished = Ended Returned
  /\ enqueue_output (emitted session) [] = (puts session, Returned).
Proof.
  assert (H : reader finished = Ended Returned) by reflexivity.
  split; [exact H|].
  exact (reader_thread_is_enqueue_output session finished Returned session_run H).
Defined.

Lemma reader_thread_so_far_witness :
  reader greeted = Running
  /\ exists c,
       emitted [Tau; Emit greeting; Put (lit "hi"); Put (lit "aeiok");
                Get (Line (lit "hi"))]
       = c ++ unread (stdout greeted)
       /\ enqueue_output c []
          = (puts [Tau; Emit greeting; Put (lit "hi"); Put (lit "aeiok");
                   Get (Line (lit "hi"))], Returned).
Proof.
  assert (H : reader greeted = Running) by reflexivity.
  split; [exact H|].
  exact (reader_thread_so_far _ greeted greeted_reached H).
Defined.

Lemma pondering_run : steps pondering [Get Empty; Get Empty] pondering.
Proof.
  apply (steps_cons pondering (Get Empty) pondering).
  { exact (main_empty pondering eq_refl eq_refl). }
  apply (steps_cons pondering (Get Empty) pondering); [|apply steps_nil].
  exact (main_empty pondering eq_refl eq_refl).
Qed.

Lemma polling_goes_on_witness :
  at_phase (main pondering) = SEARCHING
  /\ Forall no_bestmove (polls [Get Empty; Get Empty])
  /\ at_phase (main pondering) = SEARCHING
  /\ bestmove (vars (main pondering)) = bestmove (vars (main pondering))
  /\ (q pondering = [] -> step pondering (Get Empty) pondering).
Proof.
  assert (H1 : at_phase (main pondering) = SEARCHING) by reflexivity.
  assert (H2 : Forall no_bestmove (polls [Get Empty; Get Empty]))
    by (repeat constructor).
  split; [exact H1 | split; [exact H2|]].
  exact (polling_goes_on pondering _ pondering pondering_run H1 H2).
Defined.
